(** * Gap models of a resistive casing

    A shallow embedding of [create_gaps_model] from the notebook
    [resistive-casing.ipynb], of the globals it reads ([sigma], [mesh],
    [model], [sigma_inside]), of the region classification the
    specification describes, and of the notebook's source term and its
    functions [get_e], [get_e_data_horizontal] and [get_e_data_borehole],
    followed by the properties established about them.

    Conductivities and depths are rationals: the code only copies
    conductivities and only compares depths, and every literal of the
    notebook ([1e-10], [-805], [2.5]) is a rational. *)

From Stdlib Require Import List Bool Arith Lia ZArith QArith Qminmax Qabs Permutation.
From Stdlib Require Ascii String.
Import ListNotations.

(* ================================================================== *)
(** * The numpy operations the notebook uses *)
(* ================================================================== *)

Module Numpy.

(** A one-dimensional float array. *)
Definition ndarray := list Q.

(** [a.max()] and [a.min()] of a two-dimensional array reduce over all of
    its elements; on an array without elements numpy raises, hence the
    option. *)
Definition flat_max (a : list Q) : option Q :=
  match a with
  | [] => None
  | x :: xs => Some (fold_left Qmax xs x)
  end.

Definition flat_min (a : list Q) : option Q :=
  match a with
  | [] => None
  | x :: xs => Some (fold_left Qmin xs x)
  end.

(** [np.array(rows)] is a two-dimensional array exactly when all rows have
    the same length; [rectangular n rows] says that they all have length
    [n]. *)
Definition rectangular (n : nat) (rows : list (list Q)) : bool :=
  forallb (fun row => Nat.eqb (length row) n) rows.

(** [a[mask] = v] for a boolean [mask]: positions where the mask is set
    receive [v].  numpy raises [IndexError] when the mask and the array
    differ in length ([None] here). *)
Fixpoint setitem_mask (a : ndarray) (mask : list bool) (v : Q) : option ndarray :=
  match a, mask with
  | [], [] => Some []
  | x :: a', b :: mask' =>
      match setitem_mask a' mask' v with
      | Some r => Some ((if b then v else x) :: r)
      | None => None
      end
  | _, _ => None
  end.

End Numpy.

(* ================================================================== *)
(** * The object store and the exceptions *)
(* ================================================================== *)

Module Store.

Import Numpy.

(** Arrays are Python objects: a name is bound to a location, and the
    store maps locations to array contents.  A location is an index into
    the store; allocation appends. *)
Definition loc := nat.
Definition heap := list ndarray.

Inductive exn : Type :=
| Exception (gap : list Q)  (* raise Exception("Gaps must be length 2, ...") *)
| NameError                 (* the global [sigma] is not bound to an array *)
| IndexError                (* boolean index did not match the indexed array *)
| ValueError.               (* raised from inside a numpy call *)

(** Computations that read and write the store and may raise. *)
Definition M (A : Type) : Type := heap -> (exn + A) * heap.

Definition ret {A} (x : A) : M A := fun h => (inr x, h).

Definition raise {A} (e : exn) : M A := fun h => (inl e, h).

Definition bind {A B} (m : M A) (k : A -> M B) : M B :=
  fun h =>
    match m h with
    | (inl e, h') => (inl e, h')
    | (inr x, h') => k x h'
    end.

Notation "x <- m ;; k" := (bind m (fun x => k))
  (at level 61, m at next level, right associativity).
Notation "m ;;; k" := (bind m (fun _ => k))
  (at level 61, right associativity).

Definition lookup (h : heap) (l : loc) : option ndarray := nth_error h l.

Fixpoint write (h : heap) (l : loc) (a : ndarray) : heap :=
  match h, l with
  | [], _ => []
  | _ :: h', O => a :: h'
  | x :: h', S l' => x :: write h' l' a
  end.

(** [a.copy()]: a fresh array with the contents of [a]. *)
Definition copy (l : loc) : M loc :=
  fun h =>
    match lookup h l with
    | Some a => (inr (length h), h ++ [a])
    | None => (inl NameError, h)
    end.

(** In-place update of the array at [l] by [f], which may raise. *)
Definition update (l : loc) (f : ndarray -> exn + ndarray) : M unit :=
  fun h =>
    match lookup h l with
    | Some a =>
        match f a with
        | inr a' => (inr tt, write h l a')
        | inl e => (inl e, h)
        end
    | None => (inl NameError, h)
    end.

End Store.

(* ================================================================== *)
(** * The notebook *)
(* ================================================================== *)

Module Notebook.

Import Numpy Store.
Open Scope Q_scope.

(** [sigma_inside = 1] (cell "Casing parameters"). *)
Definition sigma_inside : Q := 1.

(** What the notebook reads of one mesh cell: the depth of its centre,
    [mesh.gridCC[:, 2]], and whether it belongs to the casing wall,
    [model.ind_casing(mesh)].  Both arrays come from the mesh and have one
    entry per cell. *)
Record cell : Type := Cell {
  gridCC_z : Q;
  ind_casing : bool
}.

(** The globals [create_gaps_model] refers to: the array bound to
    [sigma] and the mesh. *)
Record globals : Type := Globals {
  sigma : loc;
  mesh : list cell
}.

(** The value of the keyword argument [sigma_gap=sigma_inside]: the one
    passed, or the default. *)
Definition override (sigma_gap : option Q) : Q :=
  match sigma_gap with
  | Some v => v
  | None => sigma_inside
  end.

Section CreateGapsModel.

(** [np.array(gaps)] on rows of different lengths depends on the numpy
    release (an array of objects in the releases of 2019, a [ValueError]
    since 1.24).  What the remainder of the loop body then does to
    [sigma_gaps] is left open: [ragged_body gaps a] is the array's new
    contents, or the exception raised. *)
Variable ragged_body : list (list Q) -> ndarray -> exn + ndarray.

Variable G : globals.

(** The mask [indices_gap] for bounds [lo = gap.min()] and
    [hi = gap.max()]. *)
Definition indices_gap (lo hi : Q) : list bool :=
  map (fun c => ind_casing c && Qle_bool (gridCC_z c) hi && Qle_bool lo (gridCC_z c))
      (mesh G).

(** The loop body after the length check.  Note that the array is built
    from [gaps], the whole argument, not from the loop variable. *)
Definition assign_gap (gaps : list (list Q)) (sigma_gap : Q) (a : ndarray)
  : exn + ndarray :=
  if rectangular 2 gaps then
    match flat_min (concat gaps), flat_max (concat gaps) with
    | Some lo, Some hi =>
        match setitem_mask a (indices_gap lo hi) sigma_gap with
        | Some a' => inr a'
        | None => inl IndexError
        end
    | _, _ => inl ValueError
    end
  else ragged_body gaps a.

(** [for gap in gaps: ...], over the entries still to be visited. *)
Fixpoint for_gap (gaps : list (list Q)) (sigma_gap : Q) (sigma_gaps : loc)
         (todo : list (list Q)) : M unit :=
  match todo with
  | [] => ret tt
  | gap :: todo' =>
      if negb (Nat.eqb (length gap) 2) then raise (Exception gap)
      else
        update sigma_gaps (assign_gap gaps sigma_gap) ;;;
        for_gap gaps sigma_gap sigma_gaps todo'
  end.

(** [create_gaps_model(gaps, sigma_gap=sigma_inside)]; [None] is the call
    that omits [sigma_gap]. *)
Definition create_gaps_model (gaps : list (list Q)) (sigma_gap : option Q) : M loc :=
  let sigma_gap := override sigma_gap in
  sigma_gaps <- copy (sigma G) ;;
  for_gap gaps sigma_gap sigma_gaps gaps ;;;
  ret sigma_gaps.

(** The loop as seen from the one array it updates: the exception it
    ends with, if any, and the final contents of [sigma_gaps]. *)
Fixpoint for_gap_array (gaps : list (list Q)) (sigma_gap : Q)
         (todo : list (list Q)) (a : ndarray) : option exn * ndarray :=
  match todo with
  | [] => (None, a)
  | gap :: todo' =>
      if negb (Nat.eqb (length gap) 2) then (Some (Exception gap), a)
      else
        match assign_gap gaps sigma_gap a with
        | inr a' => for_gap_array gaps sigma_gap todo' a'
        | inl e => (Some e, a)
        end
  end.

(** The call returns the field [field]: it ends without an exception and
    its result is bound to an array of these contents. *)
Definition returns (gaps : list (list Q)) (sigma_gap : option Q) (h : heap)
           (field : ndarray) : Prop :=
  exists out h', create_gaps_model gaps sigma_gap h = (inr out, h')
                 /\ lookup h' out = Some field.

End CreateGapsModel.

(** The behaviour of current numpy releases on ragged input. *)
Definition ragged_raises (_ : list (list Q)) (_ : ndarray) : exn + ndarray :=
  inl ValueError.

(** An entry of the right length for the check [len(gap) != 2]. *)
Definition is_pair (gap : list Q) : Prop := length gap = 2%nat.

(** A gap given as the pair [(a, b)] covers the depths between its two
    values, whichever is the larger. *)
Definition in_gap (z : Q) (gap : list Q) : Prop :=
  match gap with
  | [a; b] => Qmin a b <= z /\ z <= Qmax a b
  | _ => False
  end.

End Notebook.

(* ================================================================== *)
(** * Region classification *)
(* ================================================================== *)

Module Builder.

Open Scope Q_scope.

Inductive Region : Type := Air | CasingWall | CasingInterior | Background.

(** Modelled from the spec: the notebook hands the classification of mesh
    cells to the casingSimulations package ([model.sigma],
    [model.ind_casing]), which is not part of this repository; the
    geometry, the four regions and [region_of] follow sections 3 and 4.1
    of the specification.  The casing parameters are those of the
    notebook's cell "Casing parameters". *)
Record CasingGeometry : Type := {
  casing_diameter : Q;   (* outer diameter of the casing *)
  casing_t : Q;          (* thickness of the casing wall *)
  casing_l : Q           (* length of the casing *)
}.

Definition casing_outer_radius (g : CasingGeometry) : Q := casing_diameter g / 2.
Definition casing_inner_radius (g : CasingGeometry) : Q :=
  casing_outer_radius g - casing_t g.
Definition casing_top_z (g : CasingGeometry) : Q := 0.
Definition casing_bottom_z (g : CasingGeometry) : Q := - casing_l g.

Record point : Type := Point { px : Q; py : Q; pz : Q }.

Definition Qlt_bool (x y : Q) : bool := negb (Qle_bool y x).

(** Modelled from the spec: [r < c] for the horizontal radius
    [r = sqrt (x^2 + y^2)], decided on squares; [r] is never negative, so
    [r < c] holds exactly when [c] is positive and [r^2 < c^2]. *)
Definition radius_lt (p : point) (c : Q) : bool :=
  Qlt_bool 0 c && Qlt_bool (px p * px p + py p * py p) (c * c).

Definition in_depth_range (g : CasingGeometry) (p : point) : bool :=
  Qle_bool (casing_bottom_z g) (pz p) && Qle_bool (pz p) (casing_top_z g).

(** Modelled from the spec: the radial band of the wall,
    [casing_inner_radius <= r < casing_outer_radius]. *)
Definition in_wall_band (g : CasingGeometry) (p : point) : bool :=
  negb (radius_lt p (casing_inner_radius g)) && radius_lt p (casing_outer_radius g).

(** Modelled from the spec: the four regions as section 3 words them
    (air: [z > 0]; casing wall: within the radial band and the depth
    range; casing interior: radius below the inner radius and within the
    depth range; background: everything else). *)
Definition in_region (g : CasingGeometry) (R : Region) (p : point) : bool :=
  match R with
  | Air => Qlt_bool 0 (pz p)
  | CasingWall => in_wall_band g p && in_depth_range g p
  | CasingInterior => radius_lt p (casing_inner_radius g) && in_depth_range g p
  | Background =>
      negb (Qlt_bool 0 (pz p))
      && negb (in_wall_band g p && in_depth_range g p)
      && negb (radius_lt p (casing_inner_radius g) && in_depth_range g p)
  end.

(** Modelled from the spec: [region_of], the classification of one
    point. *)
Definition region_of (g : CasingGeometry) (p : point) : Region :=
  if Qlt_bool 0 (pz p) then Air
  else if in_depth_range g p then
    if radius_lt p (casing_inner_radius g) then CasingInterior
    else if radius_lt p (casing_outer_radius g) then CasingWall
    else Background
  else Background.

End Builder.

(* ================================================================== *)
(** * Conductivity lookup *)
(* ================================================================== *)

Module Lookup.

Import Numpy Store Builder.
Open Scope Q_scope.

(** Modelled from the spec: the conductivity assignment of section 3,
    one scalar for each of the four regions.  The notebook hands these
    values to the casingSimulations package ([model.sigma(mesh)]), which
    is not part of this repository. *)
Record ConductivityAssignment : Type := {
  sigma_air : Q;
  sigma_casing : Q;
  sigma_inside : Q;
  sigma_back : Q
}.

(** Modelled from the spec: the scalar assigned to a region. *)
Definition assigned (a : ConductivityAssignment) (R : Region) : Q :=
  match R with
  | Air => sigma_air a
  | CasingWall => sigma_casing a
  | CasingInterior => sigma_inside a
  | Background => sigma_back a
  end.

(** Modelled from the spec: [conductivity(point)], the scalar assigned
    to [region_of(point)] (section 4.1). *)
Definition conductivity (a : ConductivityAssignment) (g : CasingGeometry)
           (p : point) : Q :=
  assigned a (region_of g p).

(** Modelled from the spec: [build_field(points)], a new array holding
    the conductivity of each point, in the order of the points
    (section 4.1); it is what the notebook binds to [sigma]. *)
Definition build_field (a : ConductivityAssignment) (g : CasingGeometry)
           (points : list point) : M loc :=
  fun h => (inr (length h), h ++ [map (conductivity a g) points]).

End Lookup.

(* ================================================================== *)
(** * Concrete scenarios *)
(* ================================================================== *)

Module Scenario.

Import Numpy Store Notebook.
Open Scope Q_scope.

(** Three cells of the casing wall, at depths -802, -850 and -902, and a
    cell of the formation at depth -802; the intact field is bound to
    location 0. *)
Definition cells : list cell :=
  [ Cell (-802) true; Cell (-850) true; Cell (-902) true; Cell (-802) false ].

Definition intact : ndarray := [1e-10; 1e-10; 1e-10; 1e-2].

Definition G0 : globals := Globals 0%nat cells.

Definition h0 : heap := [intact].

(** The example of the notebook's text: two gaps. *)
Definition two_gaps : list (list Q) := [[-800; -805]; [-900; -905]].

(** The one gap the notebook itself builds, larger value first. *)
Definition reversed_gap : list (list Q) := [[-800; -805]].

(** Overlapping gaps, and the same with a conductivity in each entry. *)
Definition overlapping : list (list Q) := [[-810; -795]; [-805; -800]].
Definition overlapping_with_sigma : list (list Q) :=
  [[-810; -795; 1]; [-805; -800; 2]].

(** The casing of the notebook. *)
Definition casing : Builder.CasingGeometry :=
  {| Builder.casing_diameter := 10e-2;
     Builder.casing_t := 10e-3;
     Builder.casing_l := 1000 |}.

End Scenario.

(* ================================================================== *)
(** * The source term and the extraction of the electric field *)
(* ================================================================== *)

Module Postprocess.

Import Numpy Ascii String.
Open Scope Q_scope.

(** The exceptions of this part of the notebook. *)
Inductive pyerr : Type :=
| IndexErr          (* IndexError *)
| KeyErr            (* KeyError *)
| UnboundLocalErr   (* UnboundLocalError *)
| ValueErr.         (* ValueError *)

(** What the notebook reads of one row of [mesh.gridFx] or
    [mesh.gridFz]: column 0, the radius of the face centre, and column 2,
    its depth. *)
Record face : Type := Face {
  grid_x : Q;
  grid_z : Q
}.

(** [l[i]] for a Python list of length [n]: indices count from the end
    when negative, and outside [-n, n) the access raises [IndexError]. *)
Definition list_index (n : nat) (i : Z) : option nat :=
  if (0 <=? i)%Z then
    if (i <? Z.of_nat n)%Z then Some (Z.to_nat i) else None
  else
    if (- Z.of_nat n <=? i)%Z then Some (Z.to_nat (Z.of_nat n + i)) else None.

(** [s.lower()].  Only the letters A to Z have a lowercase letter among
    the one-byte characters, and no character outside them lowers to one:
    comparing the result with ["x"] or ["z"] gives what Python gives. *)
Definition lower_ascii (c : ascii) : ascii :=
  let n := nat_of_ascii c in
  if (65 <=? n)%nat && (n <=? 90)%nat then ascii_of_nat (n + 32) else c.

Fixpoint lower (s : string) : string :=
  match s with
  | EmptyString => EmptyString
  | String c s' => String (lower_ascii c) (lower s')
  end.

(** [a[mask]] for a boolean [mask]: the entries at the positions where
    the mask is set, in order; [IndexError] ([None]) when the mask and
    the array differ in length. *)
Fixpoint getitem_mask {A : Type} (a : list A) (mask : list bool) : option (list A) :=
  match a, mask with
  | [], [] => Some []
  | x :: a', b :: mask' =>
      match getitem_mask a' mask' with
      | Some r => Some (if b then x :: r else r)
      | None => None
      end
  | _, _ => None
  end.

(** The value of a keyword argument: the one passed, or its default. *)
Definition keyword {A : Type} (default : A) (arg : option A) : A :=
  match arg with
  | Some v => v
  | None => default
  end.

(** ** The source term (cell "Create the source") *)

Section SourceTerm.

(** [mesh.hx], the widths of the cells in the radial direction, and
    [mesh.gridFz]; [mesh.nFz] is the number of rows of the latter. *)
Variable hx : list Q.
Variable gridFz : list face.

(** [src_z = np.r_[src_a_z, src_b_z]]. *)
Variable src_a_z src_b_z : Q.

Definition nFz : nat := List.length gridFz.

(** [source_inds_z], given [mesh.hx[0]]. *)
Definition source_inds_z (hx0 : Q) : list bool :=
  map (fun f =>
         negb (Qle_bool hx0 (grid_x f))
         && (Qle_bool (Qmin src_a_z src_b_z) (grid_z f)
             && Qle_bool (grid_z f) (Qmax src_a_z src_b_z)))
      gridFz.

(** [source_term_z] after [source_term_z[source_inds_z] = 1]. *)
Definition source_term_z : pyerr + ndarray :=
  match hx with
  | [] => inl IndexErr
  | hx0 :: _ =>
      match setitem_mask (repeat 0 nFz) (source_inds_z hx0) 1 with
      | Some a => inr a
      | None => inl IndexErr
      end
  end.

End SourceTerm.

(** ** [get_e], [get_e_data_horizontal], [get_e_data_borehole] *)

Section ElectricField.

(** The values of the electric field are complex numbers; the functions
    only select among them. *)
Variable C : Type.

(** [np.abs(a - z)] on floats: the subtraction rounds, so the result is
    left open as a function of the two operands. *)
Variable absdiff : Q -> Q -> Q.

(** The globals the three functions read: the face grids of the mesh
    ([mesh.nFx] is the number of rows of [mesh.gridFx]), the number of
    sources of [survey.source_list], and [fields_dict], which gives for
    the name of a model the field ['e'] of each source of the survey, one
    value per face, x-faces first. *)
Record session : Type := Session {
  gridFx : list face;
  gridFz : list face;
  source_count : nat;
  fields_dict : string -> option (nat -> list C)
}.

Variable S : session.

Definition nFx : nat := List.length (gridFx S).

Definition get_e (key : string) (source_ind : Z) (component : string)
  : pyerr + (list face * list C) :=
  match list_index (source_count S) source_ind with
  | None => inl IndexErr
  | Some src =>
      match fields_dict S key with
      | None => inl KeyErr
      | Some fields =>
          let e := fields src in
          if String.eqb (lower component) "x" then
            inr (gridFx S, firstn nFx e)
          else if String.eqb (lower component) "z" then
            inr (gridFz S, skipn nFx e)
          else inl UnboundLocalErr
      end
  end.

(** [get_e_data_horizontal(key, source_ind=0, component="x",
    x=[5, 1000], z=-0.1)]. *)
Definition get_e_data_horizontal (key : string) (source_ind : option Z)
           (component : option string) (x : option (list Q)) (z : option Q)
  : pyerr + (list Q * list C) :=
  let source_ind := keyword 0%Z source_ind in
  let component := keyword "x"%string component in
  let x := keyword [5; 1000] x in
  let z := keyword (-0.1) z in
  match get_e key source_ind component with
  | inl err => inl err
  | inr (grid, e) =>
      match flat_min x, flat_max x with
      | Some xmin, Some xmax =>
          match flat_min (map (fun f => absdiff (grid_z f) z) grid) with
          | Some dmin =>
              let inds :=
                map (fun f =>
                       (Qle_bool xmin (grid_x f) && Qle_bool (grid_x f) xmax)
                       && Qeq_bool (absdiff (grid_z f) z) dmin)
                    grid in
              match getitem_mask (map grid_x grid) inds, getitem_mask e inds with
              | Some xs, Some es => inr (xs, es)
              | _, _ => inl IndexErr
              end
          | None => inl ValueErr
          end
      | _, _ => inl ValueErr
      end
  end.

(** [get_e_data_borehole(key, source_ind=0, component="z", x=100,
    z=[-1000, 0])]. *)
Definition get_e_data_borehole (key : string) (source_ind : option Z)
           (component : option string) (x : option Q) (z : option (list Q))
  : pyerr + (list Q * list C) :=
  let source_ind := keyword 0%Z source_ind in
  let component := keyword "z"%string component in
  let x := keyword 100 x in
  let z := keyword [-1000; 0] z in
  match get_e key source_ind component with
  | inl err => inl err
  | inr (grid, e) =>
      match flat_min (map (fun f => absdiff (grid_x f) x) grid) with
      | Some dmin =>
          match flat_min z, flat_max z with
          | Some zmin, Some zmax =>
              let inds :=
                map (fun f =>
                       Qeq_bool (absdiff (grid_x f) x) dmin
                       && (Qle_bool zmin (grid_z f) && Qle_bool (grid_z f) zmax))
                    grid in
              match getitem_mask (map grid_z grid) inds, getitem_mask e inds with
              | Some zs, Some es => inr (zs, es)
              | _, _ => inl IndexErr
              end
          | _, _ => inl ValueErr
          end
      | None => inl ValueErr
      end
  end.

End ElectricField.

Arguments gridFx {C} _.
Arguments gridFz {C} _.
Arguments source_count {C} _.
Arguments fields_dict {C} _ _.
Arguments nFx {C} S.
Arguments get_e {C} S key source_ind component.
Arguments get_e_data_horizontal {C} absdiff S key source_ind component x z.
Arguments get_e_data_borehole {C} absdiff S key source_ind component x z.

(** A small session for examples: two x-faces, three z-faces, three
    sources, one model; field values are integers here. *)
Definition exact_absdiff (a b : Q) : Q := Qabs (a - b).

Definition demo_fields (src : nat) : list Z :=
  [10; 11; 20; 21; 22]%Z.

Definition demo : session Z :=
  {| gridFx := [Face 5 (-1); Face 50 (-1)];
     gridFz := [Face 100 (-10); Face 100 (-500); Face 200 (-500)];
     source_count := 3;
     fields_dict := fun key =>
       if String.eqb key "intact" then Some demo_fields else None |}.

End Postprocess.

(* ================================================================== *)
(** * Properties of the array operations *)
(* ================================================================== *)

Import Numpy Store Notebook.

Section ArrayFacts.

Open Scope Q_scope.

Lemma fold_max_ge_init (xs : list Q) (x : Q) : x <= fold_left Qmax xs x.
Proof.
  revert x; induction xs as [|y xs IH]; intros x; simpl.
  - apply Qle_refl.
  - eapply Qle_trans; [apply (Q.le_max_l x y) | apply IH].
Qed.

Lemma fold_max_ge (xs : list Q) (x y : Q) :
  In y (x :: xs) -> y <= fold_left Qmax xs x.
Proof.
  revert x; induction xs as [|w xs IH]; intros x [E | HIn].
  - subst; apply Qle_refl.
  - destruct HIn.
  - subst; apply fold_max_ge_init.
  - simpl. destruct HIn as [E | HIn].
    + subst. eapply Qle_trans; [apply (Q.le_max_r x y) | apply fold_max_ge_init].
    + apply IH. right; exact HIn.
Qed.

Lemma fold_min_le_init (xs : list Q) (x : Q) : fold_left Qmin xs x <= x.
Proof.
  revert x; induction xs as [|y xs IH]; intros x; simpl.
  - apply Qle_refl.
  - eapply Qle_trans; [apply IH | apply (Q.le_min_l x y)].
Qed.

Lemma fold_min_le (xs : list Q) (x y : Q) :
  In y (x :: xs) -> fold_left Qmin xs x <= y.
Proof.
  revert x; induction xs as [|w xs IH]; intros x [E | HIn].
  - subst; apply Qle_refl.
  - destruct HIn.
  - subst; apply fold_min_le_init.
  - simpl. destruct HIn as [E | HIn].
    + subst. eapply Qle_trans; [apply fold_min_le_init | apply (Q.le_min_r x y)].
    + apply IH. right; exact HIn.
Qed.

Lemma flat_max_ge (a : list Q) (hi y : Q) :
  flat_max a = Some hi -> In y a -> y <= hi.
Proof.
  destruct a as [|x xs]; simpl; [discriminate|].
  intros E HIn; injection E as <-. now apply fold_max_ge.
Qed.

Lemma flat_min_le (a : list Q) (lo y : Q) :
  flat_min a = Some lo -> In y a -> lo <= y.
Proof.
  destruct a as [|x xs]; simpl; [discriminate|].
  intros E HIn; injection E as <-. now apply fold_min_le.
Qed.

Lemma rectangular_Forall (n : nat) (rows : list (list Q)) :
  rectangular n rows = true <-> Forall (fun row => length row = n) rows.
Proof.
  unfold rectangular. rewrite forallb_forall, Forall_forall.
  split; intros H row HIn; specialize (H row HIn).
  - now apply Nat.eqb_eq.
  - now apply Nat.eqb_eq.
Qed.

Lemma setitem_mask_shape (a : ndarray) (mask : list bool) (v : Q) (a' : ndarray) :
  setitem_mask a mask v = Some a' ->
  length mask = length a /\ length a' = length a.
Proof.
  revert mask a'; induction a as [|x a IH]; intros [|b mask] a'; simpl;
    try discriminate.
  - intros E; injection E as <-. split; reflexivity.
  - destruct (setitem_mask a mask v) as [r|] eqn:Er; [|discriminate].
    intros E; injection E as <-. destruct (IH _ _ Er) as [H1 H2].
    simpl; split; congruence.
Qed.

Lemma setitem_mask_total (a : ndarray) (mask : list bool) (v : Q) :
  length mask = length a -> exists a', setitem_mask a mask v = Some a'.
Proof.
  revert mask; induction a as [|x a IH]; intros [|b mask]; simpl;
    try discriminate.
  - intros _. now exists [].
  - intros E. injection E as E. destruct (IH _ E) as [r ->]. eauto.
Qed.

Lemma setitem_mask_nth (a : ndarray) (mask : list bool) (v : Q) (a' : ndarray) :
  setitem_mask a mask v = Some a' ->
  forall i, nth_error a' i =
            match nth_error mask i with
            | Some true => Some v
            | _ => nth_error a i
            end.
Proof.
  revert mask a'; induction a as [|x a IH]; intros [|b mask] a'; simpl;
    try discriminate.
  - intros E; injection E as <-. intros [|i]; reflexivity.
  - destruct (setitem_mask a mask v) as [r|] eqn:Er; [|discriminate].
    intros E; injection E as <-. intros [|i]; simpl.
    + destruct b; reflexivity.
    + apply (IH _ _ Er).
Qed.

Lemma setitem_mask_again (a : ndarray) (mask : list bool) (v : Q) (a' : ndarray) :
  setitem_mask a mask v = Some a' -> setitem_mask a' mask v = Some a'.
Proof.
  revert mask a'; induction a as [|x a IH]; intros [|b mask] a'; simpl;
    try discriminate.
  - intros E; injection E as <-. reflexivity.
  - destruct (setitem_mask a mask v) as [r|] eqn:Er; [|discriminate].
    intros E; injection E as <-. simpl. rewrite (IH _ _ Er).
    destruct b; reflexivity.
Qed.

End ArrayFacts.

(* ================================================================== *)
(** * Properties of the store *)
(* ================================================================== *)

Section StoreFacts.

Lemma lookup_Some_lt (h : heap) (l : loc) (a : ndarray) :
  lookup h l = Some a -> (l < length h)%nat.
Proof.
  unfold lookup; intros E. apply nth_error_Some. congruence.
Qed.

Lemma length_write (h : heap) (l : loc) (a : ndarray) :
  length (write h l a) = length h.
Proof.
  revert l; induction h as [|x h IH]; intros [|l]; simpl; auto.
Qed.

Lemma lookup_write_same (h : heap) (l : loc) (a : ndarray) :
  (l < length h)%nat -> lookup (write h l a) l = Some a.
Proof.
  revert l; induction h as [|x h IH]; intros [|l]; simpl; try lia; auto.
  intros Hl. apply IH. lia.
Qed.

Lemma lookup_write_other (h : heap) (l l' : loc) (a : ndarray) :
  l <> l' -> lookup (write h l a) l' = lookup h l'.
Proof.
  revert l l'; induction h as [|x h IH]; intros [|l] [|l']; simpl; auto;
    try congruence.
  all: intros Hne; apply IH; congruence.
Qed.

Lemma write_write (h : heap) (l : loc) (a b : ndarray) :
  write (write h l a) l b = write h l b.
Proof.
  revert l; induction h as [|x h IH]; intros [|l]; simpl; auto.
  now rewrite IH.
Qed.

Lemma write_lookup (h : heap) (l : loc) (a : ndarray) :
  lookup h l = Some a -> write h l a = h.
Proof.
  revert l; induction h as [|x h IH]; intros [|l]; simpl; auto.
  - intros E; injection E as <-. reflexivity.
  - intros E. now rewrite (IH _ E).
Qed.

Lemma write_fresh (h : heap) (a b : ndarray) :
  write (h ++ [a]) (length h) b = h ++ [b].
Proof.
  induction h as [|x h IH]; simpl; auto. now rewrite IH.
Qed.

Lemma lookup_fresh (h : heap) (a : ndarray) :
  lookup (h ++ [a]) (length h) = Some a.
Proof.
  unfold lookup. rewrite nth_error_app2, Nat.sub_diag by lia. reflexivity.
Qed.

Lemma lookup_old (h : heap) (a : ndarray) (l : loc) :
  (l < length h)%nat -> lookup (h ++ [a]) l = lookup h l.
Proof.
  unfold lookup; intros Hl. now rewrite nth_error_app1.
Qed.

Lemma lookup_grown (h : heap) (a : ndarray) (l : loc) (b : ndarray) :
  lookup h l = Some b -> lookup (h ++ [a]) l = Some b.
Proof.
  intros E. rewrite lookup_old; [exact E | now apply lookup_Some_lt in E].
Qed.

End StoreFacts.

(* ================================================================== *)
(** * The run of [create_gaps_model] *)
(* ================================================================== *)

Section Run.

Open Scope Q_scope.

Variable ragged_body : list (list Q) -> ndarray -> exn + ndarray.
Variable G : globals.

(** The loop in the store does to the array at [l] what [for_gap_array]
    does to its contents, and touches nothing else. *)
Lemma for_gap_run (gaps : list (list Q)) (v : Q) (l : loc) (todo : list (list Q)) :
  forall (h : heap) (a : ndarray),
    lookup h l = Some a ->
    for_gap ragged_body G gaps v l todo h =
    (match fst (for_gap_array ragged_body G gaps v todo a) with
     | Some e => inl e
     | None => inr tt
     end,
     write h l (snd (for_gap_array ragged_body G gaps v todo a))).
Proof.
  induction todo as [|gap todo IH]; intros h a Hl; simpl.
  - unfold ret. now rewrite (write_lookup _ _ _ Hl).
  - destruct (negb (length gap =? 2)%nat).
    + unfold raise; simpl. now rewrite (write_lookup _ _ _ Hl).
    + unfold bind, update. rewrite Hl.
      destruct (assign_gap ragged_body G gaps v a) as [e|a'] eqn:Ea; simpl.
      * now rewrite (write_lookup _ _ _ Hl).
      * rewrite (IH (write h l a') a').
        -- now rewrite write_write.
        -- apply lookup_write_same. now apply lookup_Some_lt in Hl.
Qed.

Lemma create_gaps_model_run (gaps : list (list Q)) (sg : option Q)
      (h : heap) (base : ndarray) :
  lookup h (sigma G) = Some base ->
  create_gaps_model ragged_body G gaps sg h =
  (match fst (for_gap_array ragged_body G gaps (override sg) gaps base) with
   | Some e => inl e
   | None => inr (length h)
   end,
   h ++ [snd (for_gap_array ragged_body G gaps (override sg) gaps base)]).
Proof.
  intros Hl. unfold create_gaps_model, bind, copy. rewrite Hl.
  rewrite (for_gap_run gaps (override sg) (length h) gaps (h ++ [base]) base
             (lookup_fresh h base)).
  rewrite write_fresh.
  destruct (fst (for_gap_array ragged_body G gaps (override sg) gaps base));
    reflexivity.
Qed.

Lemma create_gaps_model_unbound (gaps : list (list Q)) (sg : option Q) (h : heap) :
  lookup h (sigma G) = None ->
  create_gaps_model ragged_body G gaps sg h = (inl NameError, h).
Proof.
  intros Hl. unfold create_gaps_model, bind, copy. now rewrite Hl.
Qed.

(** An entry that is not a pair ends the loop with an exception,
    whatever happens before it is reached. *)
Lemma for_gap_array_bad_length (gaps : list (list Q)) (v : Q) (todo : list (list Q)) :
  Exists (fun gap => ~ is_pair gap) todo ->
  forall a, exists e, fst (for_gap_array ragged_body G gaps v todo a) = Some e.
Proof.
  unfold is_pair.
  induction todo as [|gap todo IH]; intros HEx a; simpl.
  - inversion HEx.
  - destruct (length gap =? 2)%nat eqn:El; simpl; [|eauto].
    apply Nat.eqb_eq in El.
    destruct (assign_gap ragged_body G gaps v a) as [e|a']; simpl; [eauto|].
    apply IH. inversion HEx; subst; [contradiction | assumption].
Qed.

Lemma for_gap_array_ok_lengths (gaps : list (list Q)) (v : Q) (todo : list (list Q)) :
  forall a, fst (for_gap_array ragged_body G gaps v todo a) = None ->
            Forall is_pair todo.
Proof.
  unfold is_pair.
  induction todo as [|gap todo IH]; intros a; simpl; [constructor|].
  destruct (length gap =? 2)%nat eqn:El; simpl; [|discriminate].
  apply Nat.eqb_eq in El.
  destruct (assign_gap ragged_body G gaps v a) as [e|a']; simpl; [discriminate|].
  intros E. constructor; [exact El | exact (IH _ E)].
Qed.

(** On a non-empty list of pairs, the bounds are those of all the values
    of all the gaps, and the body is the masked assignment. *)
Lemma assign_gap_pairs (gaps : list (list Q)) (v : Q) :
  Forall is_pair gaps -> gaps <> [] ->
  exists lo hi,
    flat_min (concat gaps) = Some lo /\ flat_max (concat gaps) = Some hi /\
    forall a, assign_gap ragged_body G gaps v a =
              match setitem_mask a (indices_gap G lo hi) v with
              | Some a' => inr a'
              | None => inl IndexError
              end.
Proof.
  intros Hall Hne. unfold assign_gap.
  rewrite (proj2 (rectangular_Forall 2 gaps) Hall).
  destruct gaps as [|gap gaps']; [congruence|].
  inversion Hall as [|? ? Hgap _]; subst. unfold is_pair in Hgap.
  destruct gap as [|x gap]; [discriminate|]. simpl.
  eexists; eexists; repeat split.
Qed.

Lemma for_gap_array_pairs (gaps : list (list Q)) (v lo hi : Q) (todo : list (list Q)) :
  Forall is_pair gaps -> gaps <> [] ->
  flat_min (concat gaps) = Some lo -> flat_max (concat gaps) = Some hi ->
  Forall is_pair todo ->
  forall a a',
    setitem_mask a (indices_gap G lo hi) v = Some a' ->
    for_gap_array ragged_body G gaps v todo a =
    (None, match todo with [] => a | _ => a' end).
Proof.
  intros Hall Hne Elo Ehi.
  destruct (assign_gap_pairs _ v Hall Hne) as (lo' & hi' & Elo' & Ehi' & Hbody).
  assert (lo' = lo) by congruence. assert (hi' = hi) by congruence. subst.
  induction todo as [|gap todo IH]; intros Htodo a a' Ha; simpl; [reflexivity|].
  inversion Htodo as [|? ? Hgap Hrest]; subst. unfold is_pair in Hgap.
  rewrite Hgap; simpl. rewrite Hbody, Ha.
  rewrite (IH Hrest a' a' (setitem_mask_again _ _ _ _ Ha)).
  destruct todo; reflexivity.
Qed.

Lemma for_gap_array_index_error (gaps : list (list Q)) (v lo hi : Q)
      (gap : list Q) (todo : list (list Q)) (a : ndarray) :
  Forall is_pair gaps -> gaps <> [] ->
  flat_min (concat gaps) = Some lo -> flat_max (concat gaps) = Some hi ->
  is_pair gap ->
  setitem_mask a (indices_gap G lo hi) v = None ->
  fst (for_gap_array ragged_body G gaps v (gap :: todo) a) = Some IndexError.
Proof.
  intros Hall Hne Elo Ehi Hgap Ha.
  destruct (assign_gap_pairs _ v Hall Hne) as (lo' & hi' & Elo' & Ehi' & Hbody).
  assert (lo' = lo) by congruence. assert (hi' = hi) by congruence. subst.
  unfold is_pair in Hgap. simpl. rewrite Hgap; simpl. now rewrite Hbody, Ha.
Qed.

(** What a returned field is. *)
Lemma returns_inv (gaps : list (list Q)) (sg : option Q) (h : heap) (field : ndarray) :
  returns ragged_body G gaps sg h field ->
  exists base,
    lookup h (sigma G) = Some base /\ Forall is_pair gaps /\
    (gaps = [] /\ field = base
     \/ exists lo hi,
          flat_min (concat gaps) = Some lo /\ flat_max (concat gaps) = Some hi /\
          setitem_mask base (indices_gap G lo hi) (override sg) = Some field).
Proof.
  intros (out & h' & Erun & Hout).
  destruct (lookup h (sigma G)) as [base|] eqn:Hl.
  2:{ rewrite (create_gaps_model_unbound gaps sg _ Hl) in Erun. discriminate. }
  rewrite (create_gaps_model_run gaps sg _ _ Hl) in Erun.
  destruct (fst (for_gap_array ragged_body G gaps (override sg) gaps base))
    as [e|] eqn:Efst; [discriminate|].
  injection Erun as <- <-. rewrite lookup_fresh in Hout. injection Hout as Hout.
  pose proof (for_gap_array_ok_lengths _ _ _ _ Efst) as Hall.
  exists base; repeat split; auto.
  destruct gaps as [|gap gaps'] eqn:Eg; [left; simpl in Hout; auto|right].
  rewrite <- Eg in *.
  assert (Hne : gaps <> []) by (rewrite Eg; discriminate).
  destruct (assign_gap_pairs _ (override sg) Hall Hne) as (lo & hi & Elo & Ehi & _).
  exists lo, hi; repeat split; auto.
  destruct (setitem_mask base (indices_gap G lo hi) (override sg)) as [a'|] eqn:Ea.
  - rewrite (for_gap_array_pairs _ _ _ _ _ Hall Hne Elo Ehi Hall _ _ Ea) in Hout.
    rewrite Eg in Hout. simpl in Hout. congruence.
  - assert (Hgap : is_pair gap) by (rewrite Eg in Hall; now inversion Hall).
    pose proof (for_gap_array_index_error _ _ _ _ _ gaps' _ Hall Hne Elo Ehi Hgap Ea) as Hbad.
    rewrite <- Eg in Hbad. congruence.
Qed.

(** When it returns: pairs only, and a base field with one value per
    mesh cell (no cells are needed when there are no gaps). *)
Lemma returns_intro (gaps : list (list Q)) (sg : option Q) (h : heap) (base : ndarray) :
  lookup h (sigma G) = Some base ->
  Forall is_pair gaps ->
  length base = length (mesh G) ->
  exists field, returns ragged_body G gaps sg h field.
Proof.
  intros Hl Hall Hlen. unfold returns.
  rewrite (create_gaps_model_run gaps sg _ _ Hl).
  destruct gaps as [|gap gaps'] eqn:Eg.
  - simpl. exists base, (length h), (h ++ [base]). split; auto using lookup_fresh.
  - rewrite <- Eg in *.
    assert (Hne : gaps <> []) by (rewrite Eg; discriminate).
    destruct (assign_gap_pairs _ (override sg) Hall Hne) as (lo & hi & Elo & Ehi & _).
    destruct (setitem_mask_total base (indices_gap G lo hi) (override sg))
      as [a' Ea].
    { unfold indices_gap. now rewrite length_map. }
    rewrite (for_gap_array_pairs _ _ _ _ _ Hall Hne Elo Ehi Hall _ _ Ea). simpl.
    eexists; eexists; eexists. split; [reflexivity | apply lookup_fresh].
Qed.

End Run.

(* ================================================================== *)
(** * The fields [create_gaps_model] returns *)
(* ================================================================== *)

Section Fields.

Open Scope Q_scope.

Variable ragged_body : list (list Q) -> ndarray -> exn + ndarray.
Variable G : globals.

Lemma indices_gap_nth (lo hi : Q) (i : nat) (c : cell) :
  nth_error (mesh G) i = Some c ->
  nth_error (indices_gap G lo hi) i =
  Some (ind_casing c && Qle_bool (gridCC_z c) hi && Qle_bool lo (gridCC_z c)).
Proof.
  intros E. unfold indices_gap. now rewrite nth_error_map, E.
Qed.

(** Every value of a returned field is the base value or the override. *)
Lemma returned_values (gaps : list (list Q)) (sg : option Q) (h : heap)
      (base field : ndarray) :
  lookup h (sigma G) = Some base ->
  returns ragged_body G gaps sg h field ->
  length field = length base /\
  forall i, nth_error field i = nth_error base i
            \/ nth_error field i = Some (override sg).
Proof.
  intros Hl Hret.
  destruct (returns_inv _ _ _ _ _ _ Hret) as (base' & Hl' & _ & Hcases).
  assert (base' = base) by congruence; subst base'.
  destruct Hcases as [[_ ->] | (lo & hi & _ & _ & Ea)]; [auto|].
  split; [apply (setitem_mask_shape _ _ _ _ Ea)|].
  intros i. rewrite (setitem_mask_nth _ _ _ _ Ea i).
  destruct (nth_error (indices_gap G lo hi) i) as [[|]|]; auto.
Qed.

(** The samples of a field returned for a non-empty gap list: a sample
    is overridden exactly when its cell is in the casing wall and its
    depth lies between the least and the greatest value of the whole
    list. *)
Lemma returned_sample (gaps : list (list Q)) (sg : option Q) (h : heap)
      (base field : ndarray) (lo hi : Q) (i : nat) (c : cell) :
  lookup h (sigma G) = Some base ->
  returns ragged_body G gaps sg h field ->
  flat_min (concat gaps) = Some lo -> flat_max (concat gaps) = Some hi ->
  nth_error (mesh G) i = Some c ->
  nth_error field i =
  if ind_casing c && Qle_bool (gridCC_z c) hi && Qle_bool lo (gridCC_z c)
  then Some (override sg)
  else nth_error base i.
Proof.
  intros Hl Hret Elo Ehi Hc.
  destruct (returns_inv _ _ _ _ _ _ Hret) as (base' & Hl' & _ & Hcases).
  assert (base' = base) by congruence; subst base'.
  destruct Hcases as [[-> _] | (lo' & hi' & Elo' & Ehi' & Ea)]; [discriminate|].
  assert (lo' = lo) by congruence. assert (hi' = hi) by congruence. subst.
  now rewrite (setitem_mask_nth _ _ _ _ Ea i), (indices_gap_nth lo hi i c Hc).
Qed.

(** The bounds computed from a list of pairs enclose the interval of
    each of its gaps. *)
Lemma bounds_enclose_gap (gaps : list (list Q)) (lo hi z : Q) (gap : list Q) :
  flat_min (concat gaps) = Some lo -> flat_max (concat gaps) = Some hi ->
  In gap gaps -> in_gap z gap ->
  lo <= z /\ z <= hi.
Proof.
  intros Elo Ehi HIn Hz.
  destruct gap as [|a [|b [|? ?]]]; simpl in Hz; try contradiction.
  destruct Hz as [Hlo Hhi].
  assert (Ha : In a (concat gaps)) by (apply in_concat; exists [a; b]; simpl; auto).
  assert (Hb : In b (concat gaps)) by (apply in_concat; exists [a; b]; simpl; auto).
  split.
  - eapply Qle_trans; [|exact Hlo].
    apply Q.min_glb; eapply flat_min_le; eauto.
  - eapply Qle_trans; [exact Hhi|].
    apply Q.max_lub; eapply flat_max_ge; eauto.
Qed.

(** C3 (as amended).  One call has one override conductivity, shared by
    all its gaps: on a list of pairs and a base field with one value per
    cell the call returns a field in which every casing-wall sample whose
    depth lies in the interval of some gap of the list (of one, or of
    several overlapping ones) has the call's [sigma_gap]. *)
Theorem casing_in_gap_gets_sigma_gap (gaps : list (list Q)) (sg : option Q)
        (h : heap) (base : ndarray) :
  lookup h (sigma G) = Some base ->
  length base = length (mesh G) ->
  Forall is_pair gaps ->
  exists field,
    returns ragged_body G gaps sg h field /\
    forall i c gap,
      nth_error (mesh G) i = Some c -> ind_casing c = true ->
      In gap gaps -> in_gap (gridCC_z c) gap ->
      nth_error field i = Some (override sg).
Proof.
  intros Hl Hlen Hall.
  destruct (returns_intro ragged_body G gaps sg h base Hl Hall Hlen) as [field Hret].
  exists field; split; [exact Hret|].
  intros i c gap Hc Hcasing HIn Hz.
  destruct (returns_inv _ _ _ _ _ _ Hret) as (base' & Hl' & _ & Hcases).
  destruct Hcases as [[-> _] | (lo & hi & Elo & Ehi & Ea)]; [destruct HIn|].
  rewrite (setitem_mask_nth _ _ _ _ Ea i), (indices_gap_nth lo hi i c Hc).
  destruct (bounds_enclose_gap gaps lo hi _ gap Elo Ehi HIn Hz) as [Hlo Hhi].
  rewrite Hcasing, (proj2 (Qle_bool_iff _ _) Hlo), (proj2 (Qle_bool_iff _ _) Hhi).
  reflexivity.
Qed.

(** C4.  Samples outside the casing wall are never modified: on a list
    of pairs and a base field with one value per cell the call returns a
    field, and in every field the call returns, for whatever gaps, a
    sample of a cell that is not in the casing wall has its base value,
    wherever its depth lies. *)
Theorem non_casing_samples_keep_base (gaps : list (list Q)) (sg : option Q)
        (h : heap) (base : ndarray) :
  lookup h (sigma G) = Some base ->
  (Forall is_pair gaps ->
   length base = length (mesh G) ->
   exists field, returns ragged_body G gaps sg h field)
  /\
  (forall field,
     returns ragged_body G gaps sg h field ->
     forall i c,
       nth_error (mesh G) i = Some c -> ind_casing c = false ->
       nth_error field i = nth_error base i).
Proof.
  intros Hl. split.
  - intros Hall Hlen. exact (returns_intro ragged_body G gaps sg h base Hl Hall Hlen).
  - intros field Hret i c Hc Hcasing.
    destruct (returns_inv _ _ _ _ _ _ Hret) as (base' & Hl' & _ & Hcases).
    assert (base' = base) by congruence; subst base'.
    destruct Hcases as [[_ ->] | (lo & hi & _ & _ & Ea)]; [reflexivity|].
    rewrite (setitem_mask_nth _ _ _ _ Ea i), (indices_gap_nth lo hi i c Hc).
    now rewrite Hcasing.
Qed.

(** Whatever the outcome of the call, the arrays that existed before it
    are untouched. *)
Lemma existing_arrays_kept (gaps : list (list Q)) (sg : option Q) (h : heap) :
  forall l, (l < length h)%nat ->
            lookup (snd (create_gaps_model ragged_body G gaps sg h)) l = lookup h l.
Proof.
  intros l Hlt. destruct (lookup h (sigma G)) as [base|] eqn:Hl.
  - rewrite (create_gaps_model_run ragged_body G gaps sg h base Hl).
    now apply lookup_old.
  - now rewrite (create_gaps_model_unbound ragged_body G gaps sg h Hl).
Qed.

(** C5.  The call never mutates the base field: whatever the outcome,
    every array that existed before the call has the contents it had;
    and a returned field is a new array, as long as the base field, each
    of whose samples is the base sample of the same index or the
    override. *)
Theorem base_field_not_mutated (gaps : list (list Q)) (sg : option Q) (h : heap) :
  let r := create_gaps_model ragged_body G gaps sg h in
  (forall l, (l < length h)%nat -> lookup (snd r) l = lookup h l)
  /\
  (forall out,
     fst r = inr out ->
     out = length h /\
     exists base field,
       lookup h (sigma G) = Some base /\
       lookup (snd r) (sigma G) = Some base /\
       lookup (snd r) out = Some field /\
       length field = length base /\
       forall i, nth_error field i = nth_error base i
                 \/ nth_error field i = Some (override sg)).
Proof.
  intros r; subst r. split; [apply existing_arrays_kept|].
  destruct (lookup h (sigma G)) as [base|] eqn:Hl.
  - rewrite (create_gaps_model_run ragged_body G gaps sg h base Hl).
    simpl. intros out Hout.
    destruct (fst (for_gap_array ragged_body G gaps (override sg) gaps base))
      as [e|] eqn:Efst; [discriminate|].
    injection Hout as <-. split; [reflexivity|].
    set (field := snd (for_gap_array ragged_body G gaps (override sg) gaps base)).
    assert (Hret : returns ragged_body G gaps sg h field).
    { exists (length h), (h ++ [field]). split; [|apply lookup_fresh].
      rewrite (create_gaps_model_run ragged_body G gaps sg h base Hl), Efst.
      reflexivity. }
    destruct (returned_values gaps sg h base field Hl Hret) as [Hlen Hvals].
    exists base, field. repeat split; auto using lookup_fresh, lookup_grown.
  - rewrite (create_gaps_model_unbound ragged_body G gaps sg h Hl). simpl.
    discriminate.
Qed.

(** C6.  Without gaps the call is the identity on fields: the returned
    field has exactly the contents of the base field. *)
Theorem no_gaps_identity (sg : option Q) (h : heap) (base : ndarray) :
  lookup h (sigma G) = Some base ->
  returns ragged_body G [] sg h base.
Proof.
  intros Hl. exists (length h), (h ++ [base]). split; [|apply lookup_fresh].
  now rewrite (create_gaps_model_run ragged_body G [] sg h base Hl).
Qed.

(** The call is repeatable: made twice in a row with the same
    arguments, it raises the same exception both times or returns two
    distinct arrays of identical contents. *)
Lemma create_gaps_model_repeatable (gaps : list (list Q)) (sg : option Q) (h : heap) :
  let r1 := create_gaps_model ragged_body G gaps sg h in
  let r2 := create_gaps_model ragged_body G gaps sg (snd r1) in
  match fst r1, fst r2 with
  | inr out1, inr out2 =>
      out1 <> out2 /\
      lookup (snd r2) out1 = lookup (snd r2) out2 /\
      lookup (snd r2) out1 <> None
  | inl e1, inl e2 => e1 = e2
  | _, _ => False
  end.
Proof.
  intros r1 r2; subst r1 r2.
  destruct (lookup h (sigma G)) as [base|] eqn:Hl.
  - rewrite (create_gaps_model_run ragged_body G gaps sg h base Hl). simpl.
    set (run := for_gap_array ragged_body G gaps (override sg) gaps base).
    rewrite (create_gaps_model_run ragged_body G gaps sg _ base
               (lookup_grown h (snd run) _ base Hl)).
    fold run. simpl.
    destruct (fst run) as [e|]; [reflexivity|].
    rewrite length_app; simpl. repeat split.
    + lia.
    + rewrite lookup_old by (rewrite length_app; simpl; lia).
      rewrite lookup_fresh.
      replace (length h + 1)%nat with (length (h ++ [snd run]))
        by (rewrite length_app; simpl; lia).
      now rewrite lookup_fresh.
    + rewrite lookup_old by (rewrite length_app; simpl; lia).
      rewrite lookup_fresh. discriminate.
  - rewrite (create_gaps_model_unbound ragged_body G gaps sg h Hl). simpl.
    now rewrite (create_gaps_model_unbound ragged_body G gaps sg h Hl).
Qed.

(** C9.  An entry of the gap list that does not have exactly two
    elements makes the call raise: it ends with an exception, no field
    is returned, and every array that existed before the call, the base
    field among them, has the contents it had. *)
Theorem bad_gap_length_raises (gaps : list (list Q)) (sg : option Q) (h : heap) :
  Exists (fun gap => ~ is_pair gap) gaps ->
  let r := create_gaps_model ragged_body G gaps sg h in
  (exists e, fst r = inl e)
  /\ (forall field, ~ returns ragged_body G gaps sg h field)
  /\ (forall l, (l < length h)%nat -> lookup (snd r) l = lookup h l).
Proof.
  intros HEx r.
  assert (Hraise : exists e, fst r = inl e).
  { subst r. destruct (lookup h (sigma G)) as [base|] eqn:Hl.
    - rewrite (create_gaps_model_run ragged_body G gaps sg h base Hl). simpl.
      destruct (for_gap_array_bad_length ragged_body G gaps (override sg) gaps HEx base)
        as [e ->]. eauto.
    - rewrite (create_gaps_model_unbound ragged_body G gaps sg h Hl). simpl. eauto. }
  split; [exact Hraise|]. split.
  - intros field (out & h' & Erun & _). destruct Hraise as [e He].
    subst r. rewrite Erun in He. discriminate.
  - apply existing_arrays_kept.
Qed.

(** The bounds of a single pair do not depend on the order of its two
    values. *)
Lemma assign_gap_swap (a b v : Q) (x : ndarray) :
  assign_gap ragged_body G [[a; b]] v x = assign_gap ragged_body G [[b; a]] v x.
Proof.
  unfold assign_gap; simpl.
  replace (indices_gap G (Qmin b a) (Qmax b a))
    with (indices_gap G (Qmin a b) (Qmax a b)); [reflexivity|].
  unfold indices_gap. apply map_ext. intros c.
  rewrite (Qleb_comp (gridCC_z c) (gridCC_z c) (Qeq_refl _)
             (Qmax a b) (Qmax b a) (Q.max_comm a b)).
  rewrite (Qleb_comp (Qmin a b) (Qmin b a) (Q.min_comm a b)
             (gridCC_z c) (gridCC_z c) (Qeq_refl _)).
  reflexivity.
Qed.

(** C2 (as amended).  A gap whose first value exceeds its second is not
    rejected: the bounds are the minimum and the maximum of the pair.
    The call with the gap [(a, b)] does exactly what the call with
    [(b, a)] does; it never raises the exception of the gap check; and
    on a base field with one value per cell it returns a field in which
    the casing-wall samples whose depth lies between the smaller and the
    larger of the two values have [sigma_gap], and all other samples
    their base value. *)
Theorem gap_bounds_normalised (a b : Q) (sg : option Q) (h : heap) :
  create_gaps_model ragged_body G [[a; b]] sg h
  = create_gaps_model ragged_body G [[b; a]] sg h
  /\ (forall gap,
        fst (create_gaps_model ragged_body G [[a; b]] sg h) <> inl (Exception gap))
  /\ (forall base,
        lookup h (sigma G) = Some base ->
        length base = length (mesh G) ->
        exists field,
          returns ragged_body G [[a; b]] sg h field
          /\ forall i c,
               nth_error (mesh G) i = Some c ->
               (ind_casing c = true
                /\ Qmin a b <= gridCC_z c /\ gridCC_z c <= Qmax a b ->
                nth_error field i = Some (override sg))
               /\ (~ (ind_casing c = true
                      /\ Qmin a b <= gridCC_z c /\ gridCC_z c <= Qmax a b) ->
                   nth_error field i = nth_error base i)).
Proof.
  split; [|split].
  - destruct (lookup h (sigma G)) as [base|] eqn:Hl.
    + rewrite !(create_gaps_model_run ragged_body G _ sg h base Hl). simpl.
      now rewrite (assign_gap_swap a b (override sg) base).
    + now rewrite !(create_gaps_model_unbound ragged_body G _ sg h Hl).
  - intros gap. destruct (lookup h (sigma G)) as [base|] eqn:Hl.
    + rewrite (create_gaps_model_run ragged_body G _ sg h base Hl). simpl.
      unfold assign_gap; simpl.
      destruct (setitem_mask base _ (override sg)); simpl; discriminate.
    + rewrite (create_gaps_model_unbound ragged_body G _ sg h Hl). simpl.
      discriminate.
  - intros base Hl Hlen.
    assert (Hall : Forall is_pair [[a; b]]) by (repeat constructor).
    destruct (returns_intro ragged_body G [[a; b]] sg h base Hl Hall Hlen)
      as [field Hret].
    exists field. split; [exact Hret|]. intros i c Hc.
    rewrite (returned_sample [[a; b]] sg h base field
               (Qmin a b) (Qmax a b) i c Hl Hret eq_refl eq_refl Hc).
    split.
    + intros (Hcasing & Hlo & Hhi).
      now rewrite Hcasing, (proj2 (Qle_bool_iff _ _) Hlo),
        (proj2 (Qle_bool_iff _ _) Hhi).
    + intros Hnot.
      destruct (ind_casing c) eqn:Hcasing; [|reflexivity].
      destruct (Qle_bool (gridCC_z c) (Qmax a b)) eqn:Hhi; [|reflexivity].
      destruct (Qle_bool (Qmin a b) (gridCC_z c)) eqn:Hlo; [|reflexivity].
      exfalso. apply Hnot. repeat split; now apply Qle_bool_iff.
Qed.

(** In a returned field, a casing-wall sample whose depth lies in the
    interval of a gap of the list has the override of the call. *)
Lemma returned_sample_in_gap (gaps : list (list Q)) (sg : option Q) (h : heap)
      (field : ndarray) (i : nat) (c : cell) (gap : list Q) :
  returns ragged_body G gaps sg h field ->
  nth_error (mesh G) i = Some c -> ind_casing c = true ->
  In gap gaps -> in_gap (gridCC_z c) gap ->
  nth_error field i = Some (override sg).
Proof.
  intros Hret Hc Hcasing HIn Hz.
  destruct (returns_inv _ _ _ _ _ _ Hret) as (base & Hl & _ & Hcases).
  destruct Hcases as [[-> _] | (lo & hi & Elo & Ehi & Ea)]; [destruct HIn|].
  rewrite (setitem_mask_nth _ _ _ _ Ea i), (indices_gap_nth lo hi i c Hc).
  destruct (bounds_enclose_gap gaps lo hi _ gap Elo Ehi HIn Hz) as [Hlo Hhi].
  now rewrite Hcasing, (proj2 (Qle_bool_iff _ _) Hlo), (proj2 (Qle_bool_iff _ _) Hhi).
Qed.

(** C10.  One override conductivity serves all the gaps of a call, and
    it defaults to [sigma_inside], which is 1.  With [v] the value
    passed as [sigma_gap], or 1 when it is omitted: on a list of pairs
    and a base field with one value per cell the call returns a field in
    which every casing-wall sample lying in the interval of any gap of
    the list has the value [v], and every sample is its base value or
    [v]; the call that omits [sigma_gap] is the call with 1; and an
    entry that is not a pair (one that carries a value of its own, say)
    makes the call raise. *)
Theorem single_override_defaults_to_sigma_inside (gaps : list (list Q))
        (sg : option Q) (h : heap) (base : ndarray) :
  lookup h (sigma G) = Some base ->
  length base = length (mesh G) ->
  Forall is_pair gaps ->
  let v := match sg with Some v => v | None => 1 end in
  (exists field,
     returns ragged_body G gaps sg h field
     /\ (forall i c gap,
           nth_error (mesh G) i = Some c -> ind_casing c = true ->
           In gap gaps -> in_gap (gridCC_z c) gap ->
           nth_error field i = Some v)
     /\ (forall i, nth_error field i = nth_error base i
                   \/ nth_error field i = Some v))
  /\ create_gaps_model ragged_body G gaps None h
     = create_gaps_model ragged_body G gaps (Some 1) h
  /\ (forall gaps',
        Exists (fun gap => ~ is_pair gap) gaps' ->
        exists e, fst (create_gaps_model ragged_body G gaps' sg h) = inl e).
Proof.
  intros Hl Hlen Hall v.
  assert (Ev : v = override sg) by (subst v; destruct sg; reflexivity).
  split; [|split].
  - destruct (returns_intro ragged_body G gaps sg h base Hl Hall Hlen) as [field Hret].
    exists field. split; [exact Hret|]. rewrite Ev. split.
    + intros i c gap Hc Hcasing HIn Hz.
      exact (returned_sample_in_gap gaps sg h field i c gap Hret Hc Hcasing HIn Hz).
    + exact (proj2 (returned_values gaps sg h base field Hl Hret)).
  - reflexivity.
  - intros gaps' HEx.
    rewrite (create_gaps_model_run ragged_body G gaps' sg h base Hl). simpl.
    destruct (for_gap_array_bad_length ragged_body G gaps' (override sg) gaps' HEx base)
      as [e ->]. eauto.
Qed.

End Fields.

(* ================================================================== *)
(** * The scenarios *)
(* ================================================================== *)

Section Scenarios.

Import Scenario.
Open Scope Q_scope.

(** C1.  The notebook's own example of two gaps, [(-800, -805)] and
    [(-900, -905)]: the casing-wall cell at depth -850 lies in neither
    gap, and yet its sample is overridden, because each pass of the loop
    takes its bounds from all the gaps of the list (-905 and -800). *)
Theorem two_gaps_override_casing_between :
  create_gaps_model ragged_raises G0 two_gaps None h0
  = (inr 1%nat, [intact; [1; 1; 1; 1e-2]])
  /\ nth_error (mesh G0) 1 = Some (Cell (-850) true)
  /\ nth_error intact 1 = Some 1e-10
  /\ ~ in_gap (-850) [-800; -805]
  /\ ~ in_gap (-850) [-900; -905].
Proof.
  repeat split; try reflexivity.
  - intros [H _]. vm_compute in H. now apply H.
  - intros [_ H]. vm_compute in H. now apply H.
Qed.

(** C2, the claim as stated fails: the gap the notebook itself builds,
    [(-800, -805)], has its larger value first; the call raises nothing
    and overrides the casing-wall sample at depth -802. *)
Lemma reversed_gap_accepted :
  create_gaps_model ragged_raises G0 reversed_gap None h0
  = (inr 1%nat, [intact; [1; 1e-10; 1e-10; 1e-2]]).
Proof. reflexivity. Qed.

(** C3, the claim as stated fails: gap entries that carry a conductivity
    of their own have three elements, and the call raises at the first
    of them instead of returning a field with the value 2. *)
Lemma per_gap_sigma_rejected :
  create_gaps_model ragged_raises G0 overlapping_with_sigma None h0
  = (inl (Exception [-810; -795; 1]), [intact; intact]).
Proof. reflexivity. Qed.

Lemma casing_in_gap_gets_sigma_gap_witness :
  exists field,
    returns ragged_raises G0 overlapping (Some 2) h0 field
    /\ nth_error field 0 = Some 2.
Proof.
  destruct (casing_in_gap_gets_sigma_gap ragged_raises G0 overlapping (Some 2)
              h0 intact eq_refl eq_refl)
    as [field [Hret Hval]].
  - repeat constructor.
  - exists field. split; [exact Hret|].
    apply (Hval 0%nat (Cell (-802) true) [-805; -800]).
    + reflexivity.
    + reflexivity.
    + simpl; auto.
    + split; vm_compute; discriminate.
Defined.

Lemma non_casing_samples_keep_base_witness :
  exists field,
    returns ragged_raises G0 two_gaps None h0 field
    /\ nth_error field 3 = Some 1e-2.
Proof.
  destruct (non_casing_samples_keep_base ragged_raises G0 two_gaps None
              h0 intact eq_refl)
    as [Hreturns Hframe].
  destruct Hreturns as [field Hret].
  - repeat constructor.
  - reflexivity.
  - exists field. split; [exact Hret|].
    exact (Hframe field Hret 3%nat (Cell (-802) false) eq_refl eq_refl).
Defined.

Lemma no_gaps_identity_witness :
  returns ragged_raises G0 [] None h0 intact.
Proof.
  exact (no_gaps_identity ragged_raises G0 None h0 intact eq_refl).
Defined.

Lemma bad_gap_length_raises_witness :
  (exists e, fst (create_gaps_model ragged_raises G0 [[-800; -805]; [-900]] None h0)
             = inl e)
  /\ lookup (snd (create_gaps_model ragged_raises G0 [[-800; -805]; [-900]] None h0))
            (sigma G0)
     = Some intact.
Proof.
  destruct (bad_gap_length_raises ragged_raises G0 [[-800; -805]; [-900]] None h0)
    as [Hraise [_ Hkept]].
  - apply Exists_cons_tl, Exists_cons_hd. simpl. discriminate.
  - split; [exact Hraise|]. apply (Hkept 0%nat). simpl. lia.
Defined.

Lemma gap_bounds_normalised_witness :
  exists field,
    returns ragged_raises G0 [[-800; -805]] None h0 field
    /\ nth_error field 0 = Some 1
    /\ nth_error field 1 = Some 1e-10.
Proof.
  destruct (gap_bounds_normalised ragged_raises G0 (-800) (-805) None h0)
    as (_ & _ & Hfield).
  destruct (Hfield intact eq_refl eq_refl) as (field & Hret & Hval).
  exists field. split; [exact Hret|]. split.
  - apply (proj1 (Hval 0%nat (Cell (-802) true) eq_refl)).
    split; [reflexivity|]. split; vm_compute; discriminate.
  - apply (proj2 (Hval 1%nat (Cell (-850) true) eq_refl)).
    intros (_ & Hlo & _). vm_compute in Hlo. now apply Hlo.
Defined.

Lemma single_override_defaults_to_sigma_inside_witness :
  exists field,
    returns ragged_raises G0 overlapping None h0 field
    /\ nth_error field 0 = Some 1.
Proof.
  destruct (single_override_defaults_to_sigma_inside ragged_raises G0 overlapping
              None h0 intact eq_refl eq_refl)
    as ((field & Hret & Hin & _) & _).
  - repeat constructor.
  - exists field. split; [exact Hret|].
    apply (Hin 0%nat (Cell (-802) true) [-805; -800]).
    + reflexivity.
    + reflexivity.
    + simpl; auto.
    + split; vm_compute; discriminate.
Defined.

End Scenarios.

(* ================================================================== *)
(** * Region classification *)
(* ================================================================== *)

Section Regions.

Import Builder.
Open Scope Q_scope.

Lemma Qlt_bool_iff (x y : Q) : Qlt_bool x y = true <-> x < y.
Proof.
  unfold Qlt_bool. rewrite negb_true_iff. split.
  - intros E. apply Qnot_le_lt. intros Hle.
    apply Qle_bool_iff in Hle. congruence.
  - intros Hlt. destruct (Qle_bool y x) eqn:E; [|reflexivity].
    apply Qle_bool_iff in E. exfalso. exact (Qlt_not_le _ _ Hlt E).
Qed.

(** The casing does not rise above the surface: a point of the air is
    outside its depth range. *)
Lemma air_outside_depth_range (g : CasingGeometry) (p : point) :
  Qlt_bool 0 (pz p) = true -> in_depth_range g p = false.
Proof.
  intros Hair. unfold in_depth_range, casing_top_z.
  apply Qlt_bool_iff in Hair.
  destruct (Qle_bool (pz p) 0) eqn:E.
  - apply Qle_bool_iff in E. exfalso. exact (Qlt_not_le _ _ Hair E).
  - apply andb_false_r.
Qed.

(** C7.  The four regions partition space: for every geometry and every
    point, the point belongs to the region [region_of] assigns it and to
    no other; and a point above the surface is in the air whatever its
    radius. *)
Theorem region_of_partition (g : CasingGeometry) (p : point) :
  (forall R, in_region g R p = true <-> region_of g p = R)
  /\ (0 < pz p -> region_of g p = Air).
Proof.
  split.
  - intros R. unfold in_region, region_of, in_wall_band.
    destruct (Qlt_bool 0 (pz p)) eqn:Hair.
    + rewrite (air_outside_depth_range g p Hair), !andb_false_r.
      destruct R; simpl; split; congruence.
    + destruct (in_depth_range g p);
        destruct (radius_lt p (casing_inner_radius g));
        destruct (radius_lt p (casing_outer_radius g));
        destruct R; simpl; split; congruence.
  - intros Hz. unfold region_of. now rewrite (proj2 (Qlt_bool_iff 0 (pz p)) Hz).
Qed.

Lemma region_of_partition_witness :
  in_region Scenario.casing CasingWall (Point 0.045 0 (-500)) = true
  /\ region_of Scenario.casing (Point 0.045 0 10) = Air.
Proof.
  split.
  - apply (proj1 (region_of_partition Scenario.casing (Point 0.045 0 (-500)))).
    reflexivity.
  - apply (proj2 (region_of_partition Scenario.casing (Point 0.045 0 10))).
    reflexivity.
Defined.

End Regions.

(* ================================================================== *)
(** * More on [create_gaps_model]: the span of a gap list *)
(* ================================================================== *)

Section Span.

Open Scope Q_scope.

Variable ragged_body : list (list Q) -> ndarray -> exn + ndarray.
Variable G : globals.

Lemma fold_min_In (xs : list Q) (x : Q) : In (fold_left Qmin xs x) (x :: xs).
Proof.
  revert x; induction xs as [|y xs IH]; intros x; simpl; [auto|].
  destruct (IH (Qmin x y)) as [E | HIn]; [|auto].
  rewrite <- E. unfold Qmin, GenericMinMax.gmin.
  destruct (Qcompare x y); auto.
Qed.

Lemma fold_max_In (xs : list Q) (x : Q) : In (fold_left Qmax xs x) (x :: xs).
Proof.
  revert x; induction xs as [|y xs IH]; intros x; simpl; [auto|].
  destruct (IH (Qmax x y)) as [E | HIn]; [|auto].
  rewrite <- E. unfold Qmax, GenericMinMax.gmax.
  destruct (Qcompare x y); auto.
Qed.

Lemma flat_min_In (a : list Q) (lo : Q) : flat_min a = Some lo -> In lo a.
Proof.
  destruct a as [|x xs]; simpl; [discriminate|].
  intros E; injection E as <-. apply fold_min_In.
Qed.

Lemma flat_max_In (a : list Q) (hi : Q) : flat_max a = Some hi -> In hi a.
Proof.
  destruct a as [|x xs]; simpl; [discriminate|].
  intros E; injection E as <-. apply fold_max_In.
Qed.

Lemma flat_bounds_of_nonempty (a : list Q) :
  a <> [] -> exists lo hi, flat_min a = Some lo /\ flat_max a = Some hi.
Proof.
  destruct a as [|x xs]; [congruence|]. intros _. simpl. eauto.
Qed.

Lemma setitem_mask_mismatch (a : ndarray) (mask : list bool) (v : Q) :
  length mask <> length a -> setitem_mask a mask v = None.
Proof.
  intros Hne. destruct (setitem_mask a mask v) as [a'|] eqn:E; [|reflexivity].
  destruct (setitem_mask_shape _ _ _ _ E) as [Hlen _]. contradiction.
Qed.

Lemma indices_gap_Qeq (lo lo' hi hi' : Q) :
  lo == lo' -> hi == hi' -> indices_gap G lo hi = indices_gap G lo' hi'.
Proof.
  intros Elo Ehi. unfold indices_gap. apply map_ext. intros c.
  rewrite (Qleb_comp (gridCC_z c) (gridCC_z c) (Qeq_refl _) hi hi' Ehi).
  rewrite (Qleb_comp lo lo' Elo (gridCC_z c) (gridCC_z c) (Qeq_refl _)).
  reflexivity.
Qed.

Lemma for_gap_array_mismatch (gaps : list (list Q)) (v lo hi : Q)
      (gap : list Q) (todo : list (list Q)) (a : ndarray) :
  Forall is_pair gaps -> gaps <> [] ->
  flat_min (concat gaps) = Some lo -> flat_max (concat gaps) = Some hi ->
  is_pair gap ->
  setitem_mask a (indices_gap G lo hi) v = None ->
  for_gap_array ragged_body G gaps v (gap :: todo) a = (Some IndexError, a).
Proof.
  intros Hall Hne Elo Ehi Hgap Ea.
  destruct (assign_gap_pairs ragged_body G gaps v Hall Hne)
    as (lo' & hi' & Elo' & Ehi' & Hbody).
  assert (lo' = lo) by congruence. assert (hi' = hi) by congruence. subst lo' hi'.
  unfold is_pair in Hgap. simpl. rewrite Hgap. simpl. now rewrite Hbody, Ea.
Qed.

(** The whole outcome of a call on a non-empty list of pairs, in terms
    of the bounds of the list. *)
Lemma create_gaps_model_pairs (gaps : list (list Q)) (sg : option Q) (h : heap)
      (base : ndarray) (lo hi : Q) :
  lookup h (sigma G) = Some base ->
  Forall is_pair gaps -> gaps <> [] ->
  flat_min (concat gaps) = Some lo -> flat_max (concat gaps) = Some hi ->
  create_gaps_model ragged_body G gaps sg h =
  match setitem_mask base (indices_gap G lo hi) (override sg) with
  | Some field => (inr (length h), h ++ [field])
  | None => (inl IndexError, h ++ [base])
  end.
Proof.
  intros Hl Hall Hne Elo Ehi.
  rewrite (create_gaps_model_run ragged_body G gaps sg h base Hl).
  destruct (setitem_mask base (indices_gap G lo hi) (override sg)) as [a'|] eqn:Ea.
  - rewrite (for_gap_array_pairs ragged_body G gaps (override sg) lo hi gaps
               Hall Hne Elo Ehi Hall base a' Ea).
    destruct gaps; [congruence | reflexivity].
  - destruct gaps as [|gap gaps'] eqn:Eg; [congruence|]. rewrite <- Eg in *.
    assert (Hgap : is_pair gap) by (rewrite Eg in Hall; now inversion Hall).
    pose proof (for_gap_array_mismatch gaps (override sg) lo hi gap gaps' base
                  Hall Hne Elo Ehi Hgap Ea) as Hrun.
    rewrite <- Eg in Hrun. now rewrite Hrun.
Qed.

Lemma concat_pairs_nonempty (gaps : list (list Q)) :
  Forall is_pair gaps -> gaps <> [] -> concat gaps <> [].
Proof.
  intros Hall Hne. destruct gaps as [|gap gaps']; [congruence|].
  inversion Hall as [|? ? Hgap _]; subst. unfold is_pair in Hgap.
  destruct gap; [discriminate|]. simpl. discriminate.
Qed.

(** Two non-empty lists of pairs with equal bounds give the same
    outcome. *)
Lemma create_gaps_model_same_bounds (gaps gaps' : list (list Q)) (sg : option Q)
      (h : heap) (lo hi lo' hi' : Q) :
  Forall is_pair gaps -> gaps <> [] ->
  Forall is_pair gaps' -> gaps' <> [] ->
  flat_min (concat gaps) = Some lo -> flat_max (concat gaps) = Some hi ->
  flat_min (concat gaps') = Some lo' -> flat_max (concat gaps') = Some hi' ->
  lo == lo' -> hi == hi' ->
  create_gaps_model ragged_body G gaps sg h
  = create_gaps_model ragged_body G gaps' sg h.
Proof.
  intros Hall Hne Hall' Hne' Elo Ehi Elo' Ehi' Hlo Hhi.
  destruct (lookup h (sigma G)) as [base|] eqn:Hl.
  - rewrite (create_gaps_model_pairs gaps sg h base lo hi Hl Hall Hne Elo Ehi).
    rewrite (create_gaps_model_pairs gaps' sg h base lo' hi' Hl Hall' Hne' Elo' Ehi').
    now rewrite (indices_gap_Qeq lo lo' hi hi' Hlo Hhi).
  - now rewrite !(create_gaps_model_unbound ragged_body G _ sg h Hl).
Qed.

(** X1.  What the call does on a non-empty list of pairs: it overrides
    exactly the casing-wall samples whose depth lies between the least
    and the greatest of all the values of the list, and leaves every
    other sample at its base value. *)
Theorem create_gaps_model_overrides_span (gaps : list (list Q)) (sg : option Q)
        (h : heap) (base : ndarray) :
  lookup h (sigma G) = Some base ->
  length base = length (mesh G) ->
  Forall is_pair gaps -> gaps <> [] ->
  exists field lo hi,
    returns ragged_body G gaps sg h field
    /\ In lo (concat gaps) /\ In hi (concat gaps)
    /\ (forall q, In q (concat gaps) -> lo <= q /\ q <= hi)
    /\ forall i c,
         nth_error (mesh G) i = Some c ->
         (ind_casing c = true /\ lo <= gridCC_z c /\ gridCC_z c <= hi ->
          nth_error field i = Some (override sg))
         /\ (~ (ind_casing c = true /\ lo <= gridCC_z c /\ gridCC_z c <= hi) ->
             nth_error field i = nth_error base i).
Proof.
  intros Hl Hlen Hall Hne.
  destruct (returns_intro ragged_body G gaps sg h base Hl Hall Hlen) as [field Hret].
  destruct (flat_bounds_of_nonempty (concat gaps) (concat_pairs_nonempty gaps Hall Hne))
    as (lo & hi & Elo & Ehi).
  exists field, lo, hi. split; [exact Hret|].
  split; [now apply flat_min_In|]. split; [now apply flat_max_In|].
  split.
  { intros q Hq. split; [eapply flat_min_le | eapply flat_max_ge]; eauto. }
  intros i c Hc.
  rewrite (returned_sample ragged_body G gaps sg h base field lo hi i c
             Hl Hret Elo Ehi Hc).
  split.
  - intros (Hcasing & Hlo & Hhi).
    now rewrite Hcasing, (proj2 (Qle_bool_iff _ _) Hlo), (proj2 (Qle_bool_iff _ _) Hhi).
  - intros Hnot.
    destruct (ind_casing c) eqn:Hcasing; [|reflexivity].
    destruct (Qle_bool (gridCC_z c) hi) eqn:Hhi; [|reflexivity].
    destruct (Qle_bool lo (gridCC_z c)) eqn:Hlo; [|reflexivity].
    exfalso. apply Hnot. repeat split; now apply Qle_bool_iff.
Qed.

(** X2.  With a single gap the call does what its docstring says: the
    casing-wall samples whose depth lies in the gap, bounds included and
    in either order, receive [sigma_gap]; all other samples keep their
    base value. *)
Theorem single_gap_overrides_its_interval (a b : Q) (sg : option Q)
        (h : heap) (base : ndarray) :
  lookup h (sigma G) = Some base ->
  length base = length (mesh G) ->
  exists field,
    returns ragged_body G [[a; b]] sg h field
    /\ forall i c,
         nth_error (mesh G) i = Some c ->
         (ind_casing c = true /\ in_gap (gridCC_z c) [a; b] ->
          nth_error field i = Some (override sg))
         /\ (~ (ind_casing c = true /\ in_gap (gridCC_z c) [a; b]) ->
             nth_error field i = nth_error base i).
Proof.
  intros Hl Hlen.
  assert (Hall : Forall is_pair [[a; b]]) by (repeat constructor).
  destruct (returns_intro ragged_body G [[a; b]] sg h base Hl Hall Hlen)
    as [field Hret].
  exists field. split; [exact Hret|]. intros i c Hc.
  rewrite (returned_sample ragged_body G [[a; b]] sg h base field
             (Qmin a b) (Qmax a b) i c Hl Hret eq_refl eq_refl Hc).
  unfold in_gap. split.
  - intros (Hcasing & Hlo & Hhi).
    now rewrite Hcasing, (proj2 (Qle_bool_iff _ _) Hlo), (proj2 (Qle_bool_iff _ _) Hhi).
  - intros Hnot.
    destruct (ind_casing c) eqn:Hcasing; [|reflexivity].
    destruct (Qle_bool (gridCC_z c) (Qmax a b)) eqn:Hhi; [|reflexivity].
    destruct (Qle_bool (Qmin a b) (gridCC_z c)) eqn:Hlo; [|reflexivity].
    exfalso. apply Hnot. repeat split; now apply Qle_bool_iff.
Qed.

(** X3.  A base field whose length differs from the number of mesh cells
    makes the call on a non-empty list of pairs raise [IndexError], at
    the first masked assignment; the base field is left as it was. *)
Theorem shape_mismatch_raises_IndexError (gaps : list (list Q)) (sg : option Q)
        (h : heap) (base : ndarray) :
  lookup h (sigma G) = Some base ->
  length base <> length (mesh G) ->
  Forall is_pair gaps -> gaps <> [] ->
  fst (create_gaps_model ragged_body G gaps sg h) = inl IndexError
  /\ lookup (snd (create_gaps_model ragged_body G gaps sg h)) (sigma G) = Some base.
Proof.
  intros Hl Hlen Hall Hne.
  destruct (flat_bounds_of_nonempty (concat gaps) (concat_pairs_nonempty gaps Hall Hne))
    as (lo & hi & Elo & Ehi).
  rewrite (create_gaps_model_pairs gaps sg h base lo hi Hl Hall Hne Elo Ehi).
  rewrite setitem_mask_mismatch.
  - simpl. split; [reflexivity | now apply lookup_grown].
  - unfold indices_gap. rewrite length_map. congruence.
Qed.

(** X4.  The order of the gaps in a list of pairs does not matter: a
    permutation of the list gives the same outcome and the same store. *)
Theorem gap_order_irrelevant (gaps gaps' : list (list Q)) (sg : option Q) (h : heap) :
  Permutation gaps gaps' ->
  Forall is_pair gaps ->
  create_gaps_model ragged_body G gaps sg h
  = create_gaps_model ragged_body G gaps' sg h.
Proof.
  intros Hperm Hall.
  destruct gaps as [|gap rest] eqn:Eg.
  { apply Permutation_nil in Hperm. now subst. }
  rewrite <- Eg in *.
  assert (Hne : gaps <> []) by (rewrite Eg; discriminate).
  assert (Hne' : gaps' <> []).
  { intros ->. apply Permutation_sym, Permutation_nil in Hperm. contradiction. }
  assert (Hall' : Forall is_pair gaps').
  { apply Forall_forall. intros g Hg.
    apply (proj1 (Forall_forall _ _) Hall).
    now apply (Permutation_in g (Permutation_sym Hperm)). }
  assert (Hsame : forall q, In q (concat gaps) <-> In q (concat gaps')).
  { intros q. rewrite !in_concat. split; intros (g & Hg & Hq); exists g; split; auto.
    - now apply (Permutation_in g Hperm).
    - now apply (Permutation_in g (Permutation_sym Hperm)). }
  destruct (flat_bounds_of_nonempty (concat gaps) (concat_pairs_nonempty gaps Hall Hne))
    as (lo & hi & Elo & Ehi).
  destruct (flat_bounds_of_nonempty (concat gaps') (concat_pairs_nonempty gaps' Hall' Hne'))
    as (lo' & hi' & Elo' & Ehi').
  apply (create_gaps_model_same_bounds gaps gaps' sg h lo hi lo' hi'); auto.
  - apply Qle_antisym.
    + eapply flat_min_le; [exact Elo|]. apply Hsame. now apply flat_min_In.
    + eapply flat_min_le; [exact Elo'|]. apply Hsame. now apply flat_min_In.
  - apply Qle_antisym.
    + eapply flat_max_ge; [exact Ehi'|]. apply Hsame. now apply flat_max_In.
    + eapply flat_max_ge; [exact Ehi|]. apply Hsame. now apply flat_max_In.
Qed.

(** X5.  A list of several gaps acts as the one gap that reaches from
    its least to its greatest value: the call on the list and the call
    on that single gap have the same outcome and the same store. *)
Theorem gaps_collapse_to_span (gaps : list (list Q)) (sg : option Q) (h : heap)
        (lo hi : Q) :
  Forall is_pair gaps -> gaps <> [] ->
  flat_min (concat gaps) = Some lo -> flat_max (concat gaps) = Some hi ->
  create_gaps_model ragged_body G gaps sg h
  = create_gaps_model ragged_body G [[lo; hi]] sg h.
Proof.
  intros Hall Hne Elo Ehi.
  assert (Hle : lo <= hi).
  { eapply flat_min_le; [exact Elo|]. now apply flat_max_In. }
  apply (create_gaps_model_same_bounds gaps [[lo; hi]] sg h
           lo hi (Qmin lo hi) (Qmax lo hi)); auto.
  - repeat constructor.
  - discriminate.
  - symmetry. now apply Q.min_l.
  - symmetry. now apply Q.max_r.
Qed.

End Span.

(* ================================================================== *)
(** * The source term *)
(* ================================================================== *)

Section SourceTermFacts.

Import Postprocess.
Open Scope Q_scope.

Lemma negb_Qle_bool_iff (x y : Q) : negb (Qle_bool y x) = true <-> x < y.
Proof.
  rewrite negb_true_iff. split.
  - intros E. apply Qnot_le_lt. intros Hle.
    apply Qle_bool_iff in Hle. congruence.
  - intros Hlt. destruct (Qle_bool y x) eqn:E; [|reflexivity].
    apply Qle_bool_iff in E. exfalso. exact (Qlt_not_le _ _ Hlt E).
Qed.

(** X6.  The source term on the z-faces: without a cell width
    ([mesh.hx] empty) the cell raises [IndexError]; otherwise
    [source_term_z] has one entry per z-face, which is 1 on the faces
    closer to the axis than the first cell width whose depth lies between
    the two source depths (bounds included, in either order), and 0 on
    every other face. *)
Theorem source_term_z_marks_axis_faces (hx : list Q) (gridFz : list face) (a b : Q) :
  match hx with
  | [] => source_term_z hx gridFz a b = inl IndexErr
  | hx0 :: _ =>
      exists s,
        source_term_z hx gridFz a b = inr s
        /\ length s = length gridFz
        /\ forall i f,
             nth_error gridFz i = Some f ->
             (grid_x f < hx0 /\ Qmin a b <= grid_z f /\ grid_z f <= Qmax a b ->
              nth_error s i = Some 1)
             /\ (~ (grid_x f < hx0 /\ Qmin a b <= grid_z f /\ grid_z f <= Qmax a b) ->
                 nth_error s i = Some 0)
  end.
Proof.
  destruct hx as [|hx0 rest]; [reflexivity|].
  unfold source_term_z, nFz.
  destruct (setitem_mask_total (repeat 0 (length gridFz))
              (source_inds_z gridFz a b hx0) 1) as [s Es].
  { unfold source_inds_z. now rewrite length_map, repeat_length. }
  rewrite Es. exists s. split; [reflexivity|]. split.
  { destruct (setitem_mask_shape _ _ _ _ Es) as [_ Hlen].
    now rewrite Hlen, repeat_length. }
  intros i f Hf.
  rewrite (setitem_mask_nth _ _ _ _ Es i).
  unfold source_inds_z. rewrite nth_error_map, Hf. simpl.
  assert (Hi : (i < length gridFz)%nat) by (apply nth_error_Some; congruence).
  rewrite (nth_error_repeat 0 Hi).
  split.
  - intros (Hx & Hlo & Hhi).
    now rewrite (proj2 (negb_Qle_bool_iff _ _) Hx),
      (proj2 (Qle_bool_iff _ _) Hlo), (proj2 (Qle_bool_iff _ _) Hhi).
  - intros Hnot.
    destruct (negb (Qle_bool hx0 (grid_x f))) eqn:Hx; [|reflexivity].
    destruct (Qle_bool (Qmin a b) (grid_z f)) eqn:Hlo; [|reflexivity].
    destruct (Qle_bool (grid_z f) (Qmax a b)) eqn:Hhi; [|reflexivity].
    exfalso. apply Hnot. split; [now apply negb_Qle_bool_iff|].
    split; now apply Qle_bool_iff.
Qed.

(** X7.  The two source depths may be given in either order: exchanging
    [src_a_z] and [src_b_z] gives the same source term. *)
Theorem source_term_z_swap (hx : list Q) (gridFz : list face) (a b : Q) :
  source_term_z hx gridFz a b = source_term_z hx gridFz b a.
Proof.
  unfold source_term_z. destruct hx as [|hx0 rest]; [reflexivity|].
  replace (source_inds_z gridFz b a hx0) with (source_inds_z gridFz a b hx0);
    [reflexivity|].
  unfold source_inds_z. apply map_ext. intros f.
  rewrite (Qleb_comp (Qmin a b) (Qmin b a) (Q.min_comm a b)
             (grid_z f) (grid_z f) (Qeq_refl _)).
  rewrite (Qleb_comp (grid_z f) (grid_z f) (Qeq_refl _)
             (Qmax a b) (Qmax b a) (Q.max_comm a b)).
  reflexivity.
Qed.

End SourceTermFacts.

(* ================================================================== *)
(** * Selection by a boolean mask *)
(* ================================================================== *)

Section MaskFacts.

Import Postprocess.
Open Scope Q_scope.

Lemma getitem_mask_shape {A : Type} (a : list A) (mask : list bool) (r : list A) :
  getitem_mask a mask = Some r -> length mask = length a.
Proof.
  revert mask r; induction a as [|x a IH]; intros [|b mask] r; simpl;
    try discriminate; auto.
  destruct (getitem_mask a mask) as [r'|] eqn:Er; [|discriminate].
  intros _. now rewrite (IH _ _ Er).
Qed.

Lemma getitem_mask_total {A : Type} (a : list A) (mask : list bool) :
  length mask = length a -> exists r, getitem_mask a mask = Some r.
Proof.
  revert mask; induction a as [|x a IH]; intros [|b mask]; simpl;
    try discriminate; eauto.
  intros E. injection E as E. destruct (IH _ E) as [r ->]. eauto.
Qed.

Lemma getitem_mask_mismatch {A : Type} (a : list A) (mask : list bool) :
  length mask <> length a -> getitem_mask a mask = None.
Proof.
  intros Hne. destruct (getitem_mask a mask) as [r|] eqn:E; [|reflexivity].
  apply getitem_mask_shape in E. contradiction.
Qed.

(** Two arrays indexed by the same mask give aligned results: the pairs
    of the results are the pairs found at the positions the mask sets. *)
Lemma getitem_mask_pairs {A B : Type} (mask : list bool) :
  forall (a : list A) (b : list B) (ra : list A) (rb : list B),
    getitem_mask a mask = Some ra -> getitem_mask b mask = Some rb ->
    length ra = length rb
    /\ forall x y,
         In (x, y) (combine ra rb) <->
         exists i, nth_error mask i = Some true
                   /\ nth_error a i = Some x /\ nth_error b i = Some y.
Proof.
  induction mask as [|t mask IH]; intros [|x0 a] [|y0 b] ra rb; simpl;
    try discriminate.
  - intros E1 E2. injection E1 as <-. injection E2 as <-. split; [reflexivity|].
    intros x y; split; [intros [] | intros ([|i] & H & _); discriminate].
  - destruct (getitem_mask a mask) as [ra'|] eqn:Ea; [|discriminate].
    destruct (getitem_mask b mask) as [rb'|] eqn:Eb; [|discriminate].
    destruct (IH a b ra' rb' Ea Eb) as [Hlen Hiff].
    intros E1 E2. injection E1 as <-. injection E2 as <-.
    destruct t; simpl.
    + split; [now rewrite Hlen|]. intros x y. split.
      * intros [E | HIn].
        -- injection E as <- <-. exists 0%nat. simpl. auto.
        -- apply Hiff in HIn. destruct HIn as (i & H1 & H2 & H3).
           exists (S i). simpl. auto.
      * intros ([|i] & H1 & H2 & H3); simpl in *.
        -- left. congruence.
        -- right. apply Hiff. eauto.
    + split; [exact Hlen|]. intros x y. rewrite Hiff. split.
      * intros (i & H1 & H2 & H3). exists (S i). simpl. auto.
      * intros ([|i] & H1 & H2 & H3); simpl in *; [discriminate | eauto].
Qed.

(** The same for a column of the grid and the field values, with the
    mask computed from the grid. *)
Lemma select_pairs {B : Type} (grid : list face) (col : face -> Q)
      (test : face -> bool) (e : list B) (xs : list Q) (es : list B) :
  getitem_mask (map col grid) (map test grid) = Some xs ->
  getitem_mask e (map test grid) = Some es ->
  length xs = length es
  /\ forall xv ev,
       In (xv, ev) (combine xs es) <->
       exists i f, nth_error grid i = Some f /\ nth_error e i = Some ev
                   /\ xv = col f /\ test f = true.
Proof.
  intros Ex Ee.
  destruct (getitem_mask_pairs (map test grid) (map col grid) e xs es Ex Ee)
    as [Hlen Hiff].
  split; [exact Hlen|]. intros xv ev. rewrite Hiff. split.
  - intros (i & Hm & Hx & He).
    rewrite nth_error_map in Hm, Hx.
    destruct (nth_error grid i) as [f|] eqn:Hf; [|discriminate].
    simpl in Hm, Hx. exists i, f. repeat split; congruence.
  - intros (i & f & Hf & He & -> & Ht).
    exists i. rewrite !nth_error_map, Hf. simpl. repeat split; congruence.
Qed.

(** [d == np.min(d)] holds at the entries no other entry is below. *)
Lemma nearest_iff (d : face -> Q) (grid : list face) (dmin : Q) :
  flat_min (map d grid) = Some dmin ->
  forall f, In f grid ->
            (Qeq_bool (d f) dmin = true <-> forall f', In f' grid -> d f <= d f').
Proof.
  intros Emin f Hf. rewrite Qeq_bool_iff. split.
  - intros E f' Hf'. rewrite E.
    eapply flat_min_le; [exact Emin|]. now apply in_map.
  - intros Hleast.
    pose proof (flat_min_In _ _ Emin) as HIn.
    apply in_map_iff in HIn. destruct HIn as (f0 & E0 & Hf0).
    apply Qle_antisym.
    + rewrite <- E0. now apply Hleast.
    + eapply flat_min_le; [exact Emin|]. now apply in_map.
Qed.

(** [(v >= x.min()) & (v <= x.max())] holds when [v] lies between two
    values of [x]. *)
Lemma in_range_iff (x : list Q) (xmin xmax v : Q) :
  flat_min x = Some xmin -> flat_max x = Some xmax ->
  (Qle_bool xmin v && Qle_bool v xmax = true <->
   (exists a, In a x /\ a <= v) /\ (exists b, In b x /\ v <= b)).
Proof.
  intros Emin Emax. rewrite andb_true_iff, !Qle_bool_iff. split.
  - intros [Hlo Hhi]. split.
    + exists xmin. split; [now apply flat_min_In | exact Hlo].
    + exists xmax. split; [now apply flat_max_In | exact Hhi].
  - intros [(a & Ha & Hlo) (b & Hb & Hhi)]. split.
    + eapply Qle_trans; [|exact Hlo]. eapply flat_min_le; eauto.
    + eapply Qle_trans; [exact Hhi|]. eapply flat_max_ge; eauto.
Qed.

End MaskFacts.

(* ================================================================== *)
(** * [get_e] *)
(* ================================================================== *)

Section GetEFacts.

Import Postprocess Ascii String.
Open Scope string_scope.
Open Scope Q_scope.

Variable C : Type.
Variable S : session C.

Lemma list_index_in_range (n : nat) (i : Z) :
  (- Z.of_nat n <= i < Z.of_nat n)%Z ->
  exists src, list_index n i = Some src /\ (src < n)%nat.
Proof.
  intros Hi. unfold list_index.
  destruct (Z.leb_spec 0 i).
  - destruct (Z.ltb_spec i (Z.of_nat n)); [|lia].
    exists (Z.to_nat i). split; [reflexivity | lia].
  - destruct (Z.leb_spec (- Z.of_nat n) i); [|lia].
    exists (Z.to_nat (Z.of_nat n + i)). split; [reflexivity | lia].
Qed.

Lemma list_index_out_of_range (n : nat) (i : Z) :
  (i < - Z.of_nat n \/ Z.of_nat n <= i)%Z -> list_index n i = None.
Proof.
  intros Hi. unfold list_index.
  destruct (Z.leb_spec 0 i).
  - destruct (Z.ltb_spec i (Z.of_nat n)); [lia | reflexivity].
  - destruct (Z.leb_spec (- Z.of_nat n) i); [lia | reflexivity].
Qed.

Lemma list_index_negative (n : nat) (i : Z) :
  (- Z.of_nat n <= i < 0)%Z -> list_index n i = list_index n (i + Z.of_nat n).
Proof.
  intros Hi. unfold list_index.
  destruct (Z.leb_spec 0 i); [lia|].
  destruct (Z.leb_spec (- Z.of_nat n) i); [|lia].
  destruct (Z.leb_spec 0 (i + Z.of_nat n)); [|lia].
  destruct (Z.ltb_spec (i + Z.of_nat n) (Z.of_nat n)); [|lia].
  f_equal. f_equal. lia.
Qed.

Lemma lower_ascii_x (a : ascii) :
  lower_ascii a = "x"%char <-> a = "x"%char \/ a = "X"%char.
Proof.
  destruct a as [[] [] [] [] [] [] [] []]; cbv;
    (split;
     [ intros H; first [discriminate H | left; reflexivity | right; reflexivity]
     | intros [H | H]; first [discriminate H | reflexivity] ]).
Qed.

Lemma lower_ascii_z (a : ascii) :
  lower_ascii a = "z"%char <-> a = "z"%char \/ a = "Z"%char.
Proof.
  destruct a as [[] [] [] [] [] [] [] []]; cbv;
    (split;
     [ intros H; first [discriminate H | left; reflexivity | right; reflexivity]
     | intros [H | H]; first [discriminate H | reflexivity] ]).
Qed.

Lemma lower_x (c : string) : lower c = "x" <-> c = "x" \/ c = "X".
Proof.
  destruct c as [|a [|b c']]; simpl.
  - split; [discriminate | intros [H | H]; discriminate].
  - split.
    + intros E. injection E as E. apply lower_ascii_x in E.
      destruct E as [-> | ->]; auto.
    + intros [E | E]; injection E as ->; reflexivity.
  - split; [discriminate | intros [H | H]; discriminate].
Qed.

Lemma lower_z (c : string) : lower c = "z" <-> c = "z" \/ c = "Z".
Proof.
  destruct c as [|a [|b c']]; simpl.
  - split; [discriminate | intros [H | H]; discriminate].
  - split.
    + intros E. injection E as E. apply lower_ascii_z in E.
      destruct E as [-> | ->]; auto.
    + intros [E | E]; injection E as ->; reflexivity.
  - split; [discriminate | intros [H | H]; discriminate].
Qed.

(** X8.  The outcome of [get_e] by its arguments.  A source index
    outside [-n, n), for [n] sources, raises [IndexError] whatever the
    rest; then an unknown model name raises [KeyError]; then a component
    that is not one of x, X, z, Z raises [UnboundLocalError] (no branch
    binds [grid]); in all other cases a grid and a field are returned. *)
Theorem get_e_outcome (key : string) (i : Z) (c : string) :
  let n := Z.of_nat (source_count S) in
  ((i < - n \/ n <= i)%Z -> get_e S key i c = inl IndexErr)
  /\ ((- n <= i < n)%Z -> fields_dict S key = None ->
      get_e S key i c = inl KeyErr)
  /\ ((- n <= i < n)%Z -> fields_dict S key <> None ->
      ~ (c = "x" \/ c = "X" \/ c = "z" \/ c = "Z") ->
      get_e S key i c = inl UnboundLocalErr)
  /\ ((- n <= i < n)%Z -> fields_dict S key <> None ->
      c = "x" \/ c = "X" \/ c = "z" \/ c = "Z" ->
      exists grid e, get_e S key i c = inr (grid, e)).
Proof.
  intros n; subst n. unfold get_e. repeat split.
  - intros Hi. now rewrite (list_index_out_of_range _ _ Hi).
  - intros Hi Hkey. destruct (list_index_in_range _ _ Hi) as (src & -> & _).
    now rewrite Hkey.
  - intros Hi Hkey Hc. destruct (list_index_in_range _ _ Hi) as (src & -> & _).
    destruct (fields_dict S key) as [fields|]; [|congruence].
    destruct (String.eqb_spec (lower c) "x") as [Ex | _].
    { exfalso. apply Hc. apply lower_x in Ex. tauto. }
    destruct (String.eqb_spec (lower c) "z") as [Ez | _].
    { exfalso. apply Hc. apply lower_z in Ez. tauto. }
    reflexivity.
  - intros Hi Hkey Hc. destruct (list_index_in_range _ _ Hi) as (src & -> & _).
    destruct (fields_dict S key) as [fields|]; [|congruence].
    destruct (String.eqb_spec (lower c) "x") as [_ | Nx]; [eauto|].
    destruct (String.eqb_spec (lower c) "z") as [_ | Nz]; [eauto|].
    exfalso. destruct Hc as [H | [H | [H | H]]].
    + apply Nx, lower_x; auto.
    + apply Nx, lower_x; auto.
    + apply Nz, lower_z; auto.
    + apply Nz, lower_z; auto.
Qed.

(** X9.  A negative source index counts from the last source: for
    [n] sources and [-n <= i < 0], [get_e] at [i] is [get_e] at
    [i + n]. *)
Theorem get_e_negative_index (key : string) (i : Z) (c : string) :
  (- Z.of_nat (source_count S) <= i < 0)%Z ->
  get_e S key i c = get_e S key (i + Z.of_nat (source_count S)) c.
Proof.
  intros Hi. unfold get_e. now rewrite (list_index_negative _ _ Hi).
Qed.

(** X10.  The two components split the field of a source: for a valid
    index and a known model, the x-component and the z-component
    returned by [get_e], one after the other, are the whole field of one
    source of the survey; and when that field has one value per face,
    each component has one value per row of its grid. *)
Theorem get_e_components_split (key : string) (i : Z) (fields : nat -> list C) :
  (- Z.of_nat (source_count S) <= i < Z.of_nat (source_count S))%Z ->
  fields_dict S key = Some fields ->
  exists src ex ez,
    (src < source_count S)%nat
    /\ get_e S key i "x" = inr (gridFx S, ex)
    /\ get_e S key i "z" = inr (gridFz S, ez)
    /\ (ex ++ ez)%list = fields src
    /\ (List.length (fields src)
        = (List.length (gridFx S) + List.length (gridFz S))%nat ->
        List.length ex = List.length (gridFx S)
        /\ List.length ez = List.length (gridFz S)).
Proof.
  intros Hi Hkey. destruct (list_index_in_range _ _ Hi) as (src & Hsrc & Hlt).
  exists src, (firstn (nFx S) (fields src)), (skipn (nFx S) (fields src)).
  unfold get_e. rewrite Hsrc, Hkey. simpl.
  repeat split; auto using firstn_skipn.
  - unfold nFx. rewrite length_firstn. lia.
  - unfold nFx. rewrite length_skipn. lia.
Qed.

End GetEFacts.

(* ================================================================== *)
(** * [get_e_data_horizontal] and [get_e_data_borehole] *)
(* ================================================================== *)

Section LineDataFacts.

Import Postprocess String.
Open Scope string_scope.
Open Scope Q_scope.

Variable C : Type.
Variable absdiff : Q -> Q -> Q.
Variable S : session C.

(** X11.  What [get_e_data_horizontal] returns: coordinates and field
    values in equal number, paired position by position, and a pair is
    returned exactly when it is the radius and the field value of a row
    of the grid whose radius lies between two values of [x] and whose
    depth is, among all rows, one of the closest to [z]. *)
Theorem get_e_data_horizontal_selects (key : string) (si : option Z)
        (comp : option string) (x : option (list Q)) (z : option Q)
        (grid : list face) (e : list C) (xs : list Q) (es : list C) :
  get_e S key (keyword 0%Z si) (keyword "x" comp) = inr (grid, e) ->
  get_e_data_horizontal absdiff S key si comp x z = inr (xs, es) ->
  List.length xs = List.length es
  /\ forall xv ev,
       In (xv, ev) (combine xs es) <->
       exists i f,
         nth_error grid i = Some f /\ nth_error e i = Some ev /\ xv = grid_x f
         /\ (exists a, In a (keyword [5; 1000] x) /\ a <= grid_x f)
         /\ (exists b, In b (keyword [5; 1000] x) /\ grid_x f <= b)
         /\ (forall f', In f' grid ->
                        absdiff (grid_z f) (keyword (-0.1) z)
                        <= absdiff (grid_z f') (keyword (-0.1) z)).
Proof.
  intros Hget. unfold get_e_data_horizontal. rewrite Hget.
  destruct (flat_min (keyword [5; 1000] x)) as [xmin|] eqn:Exmin; [|discriminate].
  destruct (flat_max (keyword [5; 1000] x)) as [xmax|] eqn:Exmax; [|discriminate].
  destruct (flat_min (map (fun f => absdiff (grid_z f) (keyword (-0.1) z)) grid))
    as [dmin|] eqn:Edmin; [|discriminate].
  match goal with
  | |- context [getitem_mask (map grid_x grid) (map ?t grid)] => set (test := t)
  end.
  destruct (getitem_mask (map grid_x grid) (map test grid)) as [xs'|] eqn:Exs;
    [|discriminate].
  destruct (getitem_mask e (map test grid)) as [es'|] eqn:Ees; [|discriminate].
  intros E. injection E as <- <-.
  destruct (select_pairs grid grid_x test e xs' es' Exs Ees) as [Hlen Hiff].
  split; [exact Hlen|]. intros xv ev. rewrite Hiff.
  split; intros (i & f & Hf & He & Hx & Ht); exists i, f;
    (split; [exact Hf|]); (split; [exact He|]); (split; [exact Hx|]);
    pose proof (nth_error_In _ _ Hf) as HIn.
  - unfold test in Ht. apply andb_true_iff in Ht. destruct Ht as [Hrange Hnear].
    apply (in_range_iff _ xmin xmax _ Exmin Exmax) in Hrange.
    destruct Hrange as [Hlo Hhi]. split; [exact Hlo|]. split; [exact Hhi|].
    exact (proj1 (nearest_iff _ grid dmin Edmin f HIn) Hnear).
  - destruct Ht as (Hlo & Hhi & Hnear). unfold test. apply andb_true_iff. split.
    + apply (in_range_iff _ xmin xmax _ Exmin Exmax). split; assumption.
    + exact (proj2 (nearest_iff _ grid dmin Edmin f HIn) Hnear).
Qed.

(** X12.  When [get_e_data_horizontal] fails and when it returns: an
    exception of [get_e] is passed on; an empty [x] or an empty grid
    raises [ValueError] (the minimum of an empty array); a field that
    does not have one value per row of the grid raises [IndexError];
    otherwise the call returns. *)
Theorem get_e_data_horizontal_outcome (key : string) (si : option Z)
        (comp : option string) (x : option (list Q)) (z : option Q) :
  match get_e S key (keyword 0%Z si) (keyword "x" comp) with
  | inl err => get_e_data_horizontal absdiff S key si comp x z = inl err
  | inr (grid, e) =>
      (keyword [5; 1000] x = [] \/ grid = [] ->
       get_e_data_horizontal absdiff S key si comp x z = inl ValueErr)
      /\ (keyword [5; 1000] x <> [] -> grid <> [] ->
          List.length e <> List.length grid ->
          get_e_data_horizontal absdiff S key si comp x z = inl IndexErr)
      /\ (keyword [5; 1000] x <> [] -> grid <> [] ->
          List.length e = List.length grid ->
          exists xs es,
            get_e_data_horizontal absdiff S key si comp x z = inr (xs, es))
  end.
Proof.
  unfold get_e_data_horizontal.
  destruct (get_e S key (keyword 0%Z si) (keyword "x" comp)) as [err | [grid e]];
    [reflexivity|].
  destruct (keyword [5; 1000] x) as [|x0 xrest] eqn:Ex.
  { simpl. repeat split; congruence. }
  destruct (flat_bounds_of_nonempty (x0 :: xrest)) as (xmin & xmax & Exmin & Exmax);
    [discriminate|].
  rewrite Exmin, Exmax.
  destruct grid as [|f0 grid'] eqn:Eg.
  { simpl. repeat split; try congruence. }
  rewrite <- Eg.
  assert (Ed : exists dmin,
             flat_min (map (fun f => absdiff (grid_z f) (keyword (-0.1) z)) grid)
             = Some dmin) by (rewrite Eg; simpl; eauto).
  destruct Ed as [dmin ->].
  match goal with
  | |- context [getitem_mask (map grid_x grid) (map ?t grid)] => set (test := t)
  end.
  destruct (getitem_mask_total (map grid_x grid) (map test grid)) as [xs Exs];
    [now rewrite !length_map|].
  rewrite Exs. split; [|split].
  - intros [H | H]; [discriminate | rewrite Eg in H; discriminate].
  - intros _ _ Hlen. rewrite getitem_mask_mismatch; [reflexivity|].
    rewrite length_map. congruence.
  - intros _ _ Hlen.
    destruct (getitem_mask_total e (map test grid)) as [es Ees];
      [rewrite length_map; congruence|].
    rewrite Ees. eauto.
Qed.

(** X13.  What [get_e_data_borehole] returns: depths and field values in
    equal number, paired position by position, and a pair is returned
    exactly when it is the depth and the field value of a row of the
    grid whose radius is, among all rows, one of the closest to [x] and
    whose depth lies between two values of [z]. *)
Theorem get_e_data_borehole_selects (key : string) (si : option Z)
        (comp : option string) (x : option Q) (z : option (list Q))
        (grid : list face) (e : list C) (zs : list Q) (es : list C) :
  get_e S key (keyword 0%Z si) (keyword "z" comp) = inr (grid, e) ->
  get_e_data_borehole absdiff S key si comp x z = inr (zs, es) ->
  List.length zs = List.length es
  /\ forall zv ev,
       In (zv, ev) (combine zs es) <->
       exists i f,
         nth_error grid i = Some f /\ nth_error e i = Some ev /\ zv = grid_z f
         /\ (forall f', In f' grid ->
                        absdiff (grid_x f) (keyword 100 x)
                        <= absdiff (grid_x f') (keyword 100 x))
         /\ (exists a, In a (keyword [-1000; 0] z) /\ a <= grid_z f)
         /\ (exists b, In b (keyword [-1000; 0] z) /\ grid_z f <= b).
Proof.
  intros Hget. unfold get_e_data_borehole. rewrite Hget.
  destruct (flat_min (map (fun f => absdiff (grid_x f) (keyword 100 x)) grid))
    as [dmin|] eqn:Edmin; [|discriminate].
  destruct (flat_min (keyword [-1000; 0] z)) as [zmin|] eqn:Ezmin; [|discriminate].
  destruct (flat_max (keyword [-1000; 0] z)) as [zmax|] eqn:Ezmax; [|discriminate].
  match goal with
  | |- context [getitem_mask (map grid_z grid) (map ?t grid)] => set (test := t)
  end.
  destruct (getitem_mask (map grid_z grid) (map test grid)) as [zs'|] eqn:Ezs;
    [|discriminate].
  destruct (getitem_mask e (map test grid)) as [es'|] eqn:Ees; [|discriminate].
  intros E. injection E as <- <-.
  destruct (select_pairs grid grid_z test e zs' es' Ezs Ees) as [Hlen Hiff].
  split; [exact Hlen|]. intros zv ev. rewrite Hiff.
  split; intros (i & f & Hf & He & Hz & Ht); exists i, f;
    (split; [exact Hf|]); (split; [exact He|]); (split; [exact Hz|]);
    pose proof (nth_error_In _ _ Hf) as HIn.
  - unfold test in Ht. apply andb_true_iff in Ht. destruct Ht as [Hnear Hrange].
    apply (in_range_iff _ zmin zmax _ Ezmin Ezmax) in Hrange.
    destruct Hrange as [Hlo Hhi].
    split; [exact (proj1 (nearest_iff _ grid dmin Edmin f HIn) Hnear)|].
    split; assumption.
  - destruct Ht as (Hnear & Hlo & Hhi). unfold test. apply andb_true_iff. split.
    + exact (proj2 (nearest_iff _ grid dmin Edmin f HIn) Hnear).
    + apply (in_range_iff _ zmin zmax _ Ezmin Ezmax). split; assumption.
Qed.

(** X14.  When [get_e_data_borehole] fails and when it returns: an
    exception of [get_e] is passed on; an empty grid or an empty [z]
    raises [ValueError]; a field that does not have one value per row of
    the grid raises [IndexError]; otherwise the call returns. *)
Theorem get_e_data_borehole_outcome (key : string) (si : option Z)
        (comp : option string) (x : option Q) (z : option (list Q)) :
  match get_e S key (keyword 0%Z si) (keyword "z" comp) with
  | inl err => get_e_data_borehole absdiff S key si comp x z = inl err
  | inr (grid, e) =>
      (grid = [] \/ keyword [-1000; 0] z = [] ->
       get_e_data_borehole absdiff S key si comp x z = inl ValueErr)
      /\ (grid <> [] -> keyword [-1000; 0] z <> [] ->
          List.length e <> List.length grid ->
          get_e_data_borehole absdiff S key si comp x z = inl IndexErr)
      /\ (grid <> [] -> keyword [-1000; 0] z <> [] ->
          List.length e = List.length grid ->
          exists zs es,
            get_e_data_borehole absdiff S key si comp x z = inr (zs, es))
  end.
Proof.
  unfold get_e_data_borehole.
  destruct (get_e S key (keyword 0%Z si) (keyword "z" comp)) as [err | [grid e]];
    [reflexivity|].
  destruct grid as [|f0 grid'] eqn:Eg.
  { simpl. repeat split; try congruence. }
  rewrite <- Eg.
  assert (Ed : exists dmin,
             flat_min (map (fun f => absdiff (grid_x f) (keyword 100 x)) grid)
             = Some dmin) by (rewrite Eg; simpl; eauto).
  destruct Ed as [dmin ->].
  destruct (keyword [-1000; 0] z) as [|z0 zrest] eqn:Ez.
  { simpl. repeat split; congruence. }
  destruct (flat_bounds_of_nonempty (z0 :: zrest)) as (zmin & zmax & Ezmin & Ezmax);
    [discriminate|].
  rewrite Ezmin, Ezmax.
  match goal with
  | |- context [getitem_mask (map grid_z grid) (map ?t grid)] => set (test := t)
  end.
  destruct (getitem_mask_total (map grid_z grid) (map test grid)) as [zs Ezs];
    [now rewrite !length_map|].
  rewrite Ezs. split; [|split].
  - intros [H | H]; [rewrite Eg in H; discriminate | discriminate].
  - intros _ _ Hlen. rewrite getitem_mask_mismatch; [reflexivity|].
    rewrite length_map. congruence.
  - intros _ _ Hlen.
    destruct (getitem_mask_total e (map test grid)) as [es Ees];
      [rewrite length_map; congruence|].
    rewrite Ees. eauto.
Qed.

End LineDataFacts.

(* ================================================================== *)
(** * The added properties on the scenarios *)
(* ================================================================== *)

Section MoreScenarios.

Import Scenario Postprocess String.
Open Scope string_scope.
Open Scope Q_scope.

Lemma create_gaps_model_overrides_span_witness :
  exists field lo hi,
    returns ragged_raises G0 two_gaps None h0 field
    /\ In lo (List.concat two_gaps) /\ In hi (List.concat two_gaps).
Proof.
  destruct (create_gaps_model_overrides_span ragged_raises G0 two_gaps None
              h0 intact eq_refl eq_refl)
    as (field & lo & hi & Hret & Hlo & Hhi & _).
  - repeat constructor.
  - discriminate.
  - exists field, lo, hi. auto.
Defined.

Lemma single_gap_overrides_its_interval_witness :
  exists field,
    returns ragged_raises G0 [[-800; -805]] None h0 field
    /\ nth_error field 0 = Some 1.
Proof.
  destruct (single_gap_overrides_its_interval ragged_raises G0 (-800) (-805) None
              h0 intact eq_refl eq_refl)
    as (field & Hret & Hval).
  exists field. split; [exact Hret|].
  apply (proj1 (Hval 0%nat (Cell (-802) true) eq_refl)).
  split; [reflexivity|]. split; vm_compute; discriminate.
Defined.

Lemma shape_mismatch_raises_IndexError_witness :
  fst (create_gaps_model ragged_raises G0 [[-800; -805]] None [[1e-10]])
  = inl IndexError.
Proof.
  destruct (shape_mismatch_raises_IndexError ragged_raises G0 [[-800; -805]]
              None [[1e-10]] [1e-10] eq_refl)
    as [Hraise _].
  - simpl. discriminate.
  - repeat constructor.
  - discriminate.
  - exact Hraise.
Defined.

Lemma gap_order_irrelevant_witness :
  create_gaps_model ragged_raises G0 [[-800; -805]; [-900; -905]] None h0
  = create_gaps_model ragged_raises G0 [[-900; -905]; [-800; -805]] None h0.
Proof.
  apply gap_order_irrelevant.
  - apply perm_swap.
  - repeat constructor.
Defined.

Lemma gaps_collapse_to_span_witness :
  create_gaps_model ragged_raises G0 two_gaps None h0
  = create_gaps_model ragged_raises G0 [[-905; -800]] None h0.
Proof.
  apply (gaps_collapse_to_span ragged_raises G0 two_gaps None h0 (-905) (-800)).
  - repeat constructor.
  - discriminate.
  - reflexivity.
  - reflexivity.
Defined.

Lemma get_e_negative_index_witness :
  get_e demo "intact" (-1) "z" = get_e demo "intact" 2 "z".
Proof.
  apply (get_e_negative_index Z demo "intact" (-1) "z"). simpl. lia.
Defined.

Lemma get_e_components_split_witness :
  exists ex ez,
    get_e demo "intact" 0 "x" = inr (gridFx demo, ex)
    /\ get_e demo "intact" 0 "z" = inr (gridFz demo, ez)
    /\ List.length ex = 2%nat /\ List.length ez = 3%nat.
Proof.
  destruct (get_e_components_split Z demo "intact" 0 demo_fields)
    as (src & ex & ez & _ & Hx & Hz & _ & Hlen).
  - simpl. lia.
  - reflexivity.
  - exists ex, ez. split; [exact Hx|]. split; [exact Hz|].
    apply Hlen. reflexivity.
Defined.

Lemma get_e_data_horizontal_selects_witness :
  exists i f,
    nth_error (gridFx demo) i = Some f /\ grid_x f = 50 /\ grid_z f = -1.
Proof.
  destruct (get_e_data_horizontal_selects Z exact_absdiff demo "intact"
              None None None None (gridFx demo) [10; 11]%Z [5; 50] [10; 11]%Z
              eq_refl eq_refl)
    as [_ Hiff].
  destruct (proj1 (Hiff 50 11%Z)) as (i & f & Hf & _ & Hx & _).
  - simpl. auto.
  - exists i, f. split; [exact Hf|].
    destruct i as [|[|i]]; simpl in Hf.
    + injection Hf as <-. discriminate Hx.
    + injection Hf as <-. split; reflexivity.
    + destruct i; discriminate Hf.
Defined.

Lemma get_e_data_borehole_selects_witness :
  exists i f,
    nth_error (gridFz demo) i = Some f /\ grid_x f = 100 /\ grid_z f = -500.
Proof.
  destruct (get_e_data_borehole_selects Z exact_absdiff demo "intact"
              None None None None (gridFz demo) [20; 21; 22]%Z [-10; -500]
              [20; 21]%Z eq_refl eq_refl)
    as [_ Hiff].
  destruct (proj1 (Hiff (-500) 21%Z)) as (i & f & Hf & He & _).
  - simpl. auto.
  - exists i, f. split; [exact Hf|].
    destruct i as [|[|[|i]]]; simpl in Hf, He.
    + discriminate He.
    + injection Hf as <-. split; reflexivity.
    + discriminate He.
    + destruct i; discriminate Hf.
Defined.

End MoreScenarios.

(* ================================================================== *)
(** * Repeated evaluation *)
(* ================================================================== *)

Section Determinism.

Import Builder Lookup.
Open Scope Q_scope.

Variable ragged_body : list (list Q) -> ndarray -> exn + ndarray.
Variable G : globals.

(** A point satisfies the predicate of the region [region_of] gives it,
    and of no other. *)
Lemma in_region_iff_region_of (g : CasingGeometry) (p : point) (R : Region) :
  in_region g R p = true <-> region_of g p = R.
Proof.
  unfold in_region, region_of, in_wall_band.
  destruct (Qlt_bool 0 (pz p)) eqn:Hair.
  - rewrite (air_outside_depth_range g p Hair), !andb_false_r.
    destruct R; simpl; split; congruence.
  - destruct (in_depth_range g p);
      destruct (radius_lt p (casing_inner_radius g));
      destruct (radius_lt p (casing_outer_radius g));
      destruct R; simpl; split; congruence.
Qed.

(** The outcome of the call depends on the store only through the
    contents of the base field. *)
Lemma create_gaps_model_same_base (gaps : list (list Q)) (sg : option Q)
      (h1 h2 : heap) :
  lookup h1 (sigma G) = lookup h2 (sigma G) ->
  match fst (create_gaps_model ragged_body G gaps sg h1),
        fst (create_gaps_model ragged_body G gaps sg h2) with
  | inr out1, inr out2 =>
      lookup (snd (create_gaps_model ragged_body G gaps sg h1)) out1
      = lookup (snd (create_gaps_model ragged_body G gaps sg h2)) out2
      /\ lookup (snd (create_gaps_model ragged_body G gaps sg h1)) out1 <> None
  | inl e1, inl e2 => e1 = e2
  | _, _ => False
  end.
Proof.
  intros E. destruct (lookup h1 (sigma G)) as [base|] eqn:H1; symmetry in E.
  - rewrite (create_gaps_model_run ragged_body G gaps sg h1 base H1).
    rewrite (create_gaps_model_run ragged_body G gaps sg h2 base E). simpl.
    destruct (fst (for_gap_array ragged_body G gaps (override sg) gaps base));
      [reflexivity|].
    rewrite !lookup_fresh. split; [reflexivity | discriminate].
  - rewrite (create_gaps_model_unbound ragged_body G gaps sg h1 H1).
    now rewrite (create_gaps_model_unbound ragged_body G gaps sg h2 E).
Qed.

(** C8.  Classification, conductivity lookup and the gap model give the
    same results whenever they are evaluated on the same inputs.
    The conductivity of a point is the value assigned to the one region
    whose predicate the point satisfies.  Built in any two stores, the
    field of a list of points has the same contents: the conductivity of
    each point, in order.  [create_gaps_model], called in two stores
    that hold the same base field, raises the same exception in both or
    returns fields of identical contents; called twice in a row, it
    raises the same exception twice or returns two distinct arrays of
    identical contents. *)
Theorem classification_and_gaps_deterministic
        (a : ConductivityAssignment) (g : CasingGeometry) (points : list point)
        (gaps : list (list Q)) (sg : option Q) (h1 h2 : heap) :
  (forall p R, in_region g R p = true -> conductivity a g p = assigned a R)
  /\ (exists out1 out2 field,
        fst (build_field a g points h1) = inr out1
        /\ fst (build_field a g points h2) = inr out2
        /\ lookup (snd (build_field a g points h1)) out1 = Some field
        /\ lookup (snd (build_field a g points h2)) out2 = Some field
        /\ length field = length points
        /\ forall i p, nth_error points i = Some p ->
                       nth_error field i = Some (conductivity a g p))
  /\ (lookup h1 (sigma G) = lookup h2 (sigma G) ->
      match fst (create_gaps_model ragged_body G gaps sg h1),
            fst (create_gaps_model ragged_body G gaps sg h2) with
      | inr out1, inr out2 =>
          lookup (snd (create_gaps_model ragged_body G gaps sg h1)) out1
          = lookup (snd (create_gaps_model ragged_body G gaps sg h2)) out2
          /\ lookup (snd (create_gaps_model ragged_body G gaps sg h1)) out1 <> None
      | inl e1, inl e2 => e1 = e2
      | _, _ => False
      end)
  /\ (let r1 := create_gaps_model ragged_body G gaps sg h1 in
      let r2 := create_gaps_model ragged_body G gaps sg (snd r1) in
      match fst r1, fst r2 with
      | inr out1, inr out2 =>
          out1 <> out2
          /\ lookup (snd r2) out1 = lookup (snd r2) out2
          /\ lookup (snd r2) out1 <> None
      | inl e1, inl e2 => e1 = e2
      | _, _ => False
      end).
Proof.
  split; [|split; [|split]].
  - intros p R HR. unfold conductivity.
    now rewrite (proj1 (in_region_iff_region_of g p R) HR).
  - exists (length h1), (length h2), (map (conductivity a g) points).
    unfold build_field; simpl. rewrite !lookup_fresh, length_map.
    repeat split.
    intros i p Hp. now rewrite nth_error_map, Hp.
  - apply create_gaps_model_same_base.
  - exact (create_gaps_model_repeatable ragged_body G gaps sg h1).
Qed.

End Determinism.

Section DeterminismScenario.

Import Builder Lookup.
Open Scope Q_scope.

Lemma classification_and_gaps_deterministic_witness :
  conductivity
    {| sigma_air := 1e-8; sigma_casing := 1e-10;
       Lookup.sigma_inside := 1; sigma_back := 1e-2 |}
    Scenario.casing (Point 0.045 0 (-500))
  = 1e-10.
Proof.
  apply (proj1 (classification_and_gaps_deterministic
                  ragged_raises Scenario.G0
                  {| sigma_air := 1e-8; sigma_casing := 1e-10;
                     Lookup.sigma_inside := 1; sigma_back := 1e-2 |}
                  Scenario.casing [] [] None [] [])
               (Point 0.045 0 (-500)) CasingWall).
  reflexivity.
Defined.

End DeterminismScenario.
